(** * Self-Hosting Hub API (app/main.py): a shallow embedding

    The FastAPI handlers of [app/main.py] are embedded as computations in a
    small state-and-exception monad over a model of the MongoDB database
    [db = client.self_hosting_hub].  The three collections are lists of
    documents in the store's natural order; every driver call that reaches
    the store appends an entry to an operation log, so that "no store access
    happened" and "the check came before the insert" are statements about
    the log.  Datetimes are kept in microseconds, as Python has them; the
    store keeps whole milliseconds, and the driver cuts them on insert. *)

From Stdlib Require Import ZArith NArith String Ascii.
From stdpp Require Import base decidable option list sorting strings gmap.

Local Open Scope string_scope.
Local Open Scope Z_scope.
Local Open Scope list_scope.
Local Open Scope stdpp_scope.

(** ** Scalar types *)

(** [datetime]: a naive UTC instant, in microseconds since the epoch. *)
Definition datetime := Z.

(** A datetime after a trip through the store: BSON keeps whole
    milliseconds since the epoch, so the driver drops the microseconds
    below the millisecond when it encodes a document ([microsecond // 1000]). *)
Definition bson_datetime (t : datetime) : datetime := 1000 * (t / 1000).

(** The largest integer the driver can encode (8-byte signed). *)
Definition INT64_MAX : Z := 9223372036854775807.

(** [bson.ObjectId]: a 12-byte value, kept as the number it encodes. *)
Record ObjectId := mkObjectId { oid_value : N }.

Definition hex_digit (n : N) : ascii :=
  match n with
  | 0%N => "0" | 1%N => "1" | 2%N => "2" | 3%N => "3"
  | 4%N => "4" | 5%N => "5" | 6%N => "6" | 7%N => "7"
  | 8%N => "8" | 9%N => "9" | 10%N => "a" | 11%N => "b"
  | 12%N => "c" | 13%N => "d" | 14%N => "e" | _ => "f"
  end%char.

Fixpoint hex_pad (digits : nat) (n : N) (acc : string) : string :=
  match digits with
  | O => acc
  | S d => hex_pad d (n / 16)%N (String (hex_digit (n mod 16)%N) acc)
  end.

(** [str(oid)]: the 24-character lower-case hexadecimal rendering. *)
Definition ObjectId_str (o : ObjectId) : string := hex_pad 24 (oid_value o) "".

Global Instance ObjectId_eq_dec : EqDecision ObjectId.
Proof. solve_decision. Defined.

(** ** Documents (the Pydantic models and the stored shapes) *)

Module Tag.
Record t := mk { name : string; color : string }.
End Tag.

(** A document of [db.guides]: the fields of [GuideBase] and [Guide], the
    store's [_id], and the undeclared [category_id] key that
    [get_categories] queries (absent on a document = [None]). *)
Module GuideDoc.
Record t := mk {
  _id : ObjectId;
  title : string;
  description : string;
  content : option string;
  icon : string;
  color : string;
  tags : list Tag.t;
  featured : bool;
  created_at : datetime;
  updated_at : datetime;
  category_id : option string
}.
End GuideDoc.

(** A document of [db.categories]: [CategoryBase] plus [_id]. *)
Module CategoryDoc.
Record t := mk {
  _id : ObjectId;
  name : string;
  description : string;
  icon : string;
  color : string
}.
End CategoryDoc.

(** The dict built at lines 155-158 and handed to [insert_one]. *)
Module Subscriber.
Record t := mk { email : string; subscribed_at : datetime }.
End Subscriber.

(** A document of [db.subscribers]. *)
Module SubscriberDoc.
Record t := mk { _id : ObjectId; email : string; subscribed_at : datetime }.
End SubscriberDoc.

(** [{**guide, "id": str(guide["_id"])}] *)
Module GuideOut.
Record t := mk { doc : GuideDoc.t; id : string }.
End GuideOut.

(** [{**category, "id": str(category["_id"]), "guide_count": guide_count}] *)
Module CategoryOut.
Record t := mk { doc : CategoryDoc.t; id : string; guide_count : nat }.
End CategoryOut.

Module Stats.
Record t := mk { guides : nat; categories : nat; technologies : nat }.
End Stats.

(** ** The database and the world a request runs in *)

Record Database := mkDatabase {
  guides : list GuideDoc.t;
  categories : list CategoryDoc.t;
  subscribers : list SubscriberDoc.t
}.

Inductive Collection := Guides | Categories | Subscribers.

(** One entry per driver call; an insert records the document it was given. *)
Inductive StoreOp :=
  | CountDocuments (c : Collection)
  | FindOne (c : Collection)
  | Find (c : Collection)
  | Aggregate (c : Collection)
  | InsertOne (c : Collection) (doc : Subscriber.t).

Record World := mkWorld {
  db : Database;
  oplog : list StoreOp;          (* driver calls made so far, oldest first *)
  clock : datetime;              (* what [datetime.utcnow()] returns now *)
  imported_at : datetime;        (* what it returned when the module was imported *)
  oid_counter : N                (* the driver's ObjectId generator *)
}.

Definition logged (op : StoreOp) (w : World) : World :=
  mkWorld (db w) (oplog w ++ [op]) (clock w) (imported_at w) (oid_counter w).

(** The environment moving the wall clock between two requests. *)
Definition advance_clock (t : datetime) (w : World) : World :=
  mkWorld (db w) (oplog w) t (imported_at w) (oid_counter w).

(** [NewsletterSubscriber.subscribed_at]'s class-level default (line 74):
    [datetime.utcnow()] evaluated once, when the class body ran. *)
Definition NewsletterSubscriber_default_subscribed_at (w : World) : datetime :=
  imported_at w.

(** ** The handler monad: state passing plus [raise HTTPException] *)

Inductive HTTPException := mkHTTPException (status_code : Z) (detail : string).

Definition HTTP_201_CREATED : Z := 201.
Definition HTTP_400_BAD_REQUEST : Z := 400.
Definition HTTP_404_NOT_FOUND : Z := 404.
Definition HTTP_500_INTERNAL_SERVER_ERROR : Z := 500.

(** An exception of the driver that no handler catches. *)
Inductive PythonError := OverflowError.

Inductive Result (A : Type) :=
  | Return (a : A)
  | Raise (e : HTTPException)
  | Throw (e : PythonError).
Arguments Return {A} a.
Arguments Raise {A} e.
Arguments Throw {A} e.

Definition M (A : Type) : Type := World → Result A * World.

Global Instance M_ret : MRet M := λ A a w, (Return a, w).
Global Instance M_bind : MBind M := λ A B f m w,
  match m w with
  | (Return a, w') => f a w'
  | (Raise e, w') => (Raise e, w')
  | (Throw e, w') => (Throw e, w')
  end.

Definition raise {A} (e : HTTPException) : M A := λ w, (Raise e, w).

(** [datetime.utcnow()] *)
Definition utcnow : M datetime := λ w, (Return (clock w), w).

(** [xs = []; async for x in cursor: xs.append(await body(x))] *)
Fixpoint for_append {A B} (cursor : list A) (body : A → M B) (xs : list B)
  : M (list B) :=
  match cursor with
  | [] => mret xs
  | x :: rest => y ← body x; for_append rest body (xs ++ [y])
  end.

(** ** The driver: queries, cursors and the aggregation pipeline *)

(** The filter documents the handlers pass to [db.guides]. *)
Inductive GuideQuery :=
  | QAny                              (* [{}] *)
  | QFeatured (b : bool)              (* [{"featured": b}] *)
  | QCategoryId (s : string).         (* [{"category_id": s}] *)

Definition guide_matches (q : GuideQuery) (g : GuideDoc.t) : bool :=
  match q with
  | QAny => true
  | QFeatured b => bool_decide (GuideDoc.featured g = b)
  | QCategoryId s => bool_decide (GuideDoc.category_id g = Some s)
  end.

(** [{"email": e}] on [db.subscribers]. *)
Definition subscriber_matches (e : string) (s : SubscriberDoc.t) : bool :=
  bool_decide (SubscriberDoc.email s = e).

Definition guides_count_documents (q : GuideQuery) : M nat := λ w,
  (Return (length (filter (guide_matches q) (guides (db w)))),
   logged (CountDocuments Guides) w).

Definition categories_count_documents : M nat := λ w,
  (Return (length (categories (db w))), logged (CountDocuments Categories) w).

(** [find_one]: the first match in natural order, or [None]. *)
Definition guides_find_one (q : GuideQuery) : M (option GuideDoc.t) := λ w,
  (Return (head (filter (guide_matches q) (guides (db w)))),
   logged (FindOne Guides) w).

Definition subscribers_find_one (e : string) : M (option SubscriberDoc.t) := λ w,
  (Return (head (filter (subscriber_matches e) (subscribers (db w)))),
   logged (FindOne Subscribers) w).

Definition categories_find : M (list CategoryDoc.t) := λ w,
  (Return (categories (db w)), logged (Find Categories) w).

(** [cursor.sort("created_at", direction)]: ascending for a positive
    direction, descending for [-1].  Among documents with equal keys the
    store is free to choose; the model takes the merge sort's order, and
    the statements below either hold for every such choice or assume that
    no two guides share a key. *)
Definition created_at_asc (g1 g2 : GuideDoc.t) : Prop :=
  (GuideDoc.created_at g1 ≤ GuideDoc.created_at g2)%Z.
Definition created_at_desc (g1 g2 : GuideDoc.t) : Prop :=
  (GuideDoc.created_at g2 ≤ GuideDoc.created_at g1)%Z.

Global Instance created_at_asc_dec g1 g2 : Decision (created_at_asc g1 g2).
Proof. unfold created_at_asc. apply _. Defined.
Global Instance created_at_desc_dec g1 g2 : Decision (created_at_desc g1 g2).
Proof. unfold created_at_desc. apply _. Defined.

Definition cursor_sort_created_at (direction : Z) (l : list GuideDoc.t)
  : list GuideDoc.t :=
  if decide (direction < 0) then merge_sort created_at_desc l
  else merge_sort created_at_asc l.

(** [cursor.limit(n)]: the driver documents a limit of 0 as equivalent to
    no limit; a negative limit asks for a single batch of at most [|n|]
    documents. *)
Definition cursor_limit {A} (n : Z) (l : list A) : list A :=
  if decide (n = 0) then l else take (Z.to_nat (Z.abs n)) l.

(** [db.guides.find().sort("created_at", direction).limit(n)], iterated.
    The command carries [|n|]; when that does not fit 8 bytes the driver
    raises [OverflowError] while encoding it, before anything is sent. *)
Definition guides_find_sort_limit (direction n : Z) : M (list GuideDoc.t) := λ w,
  if decide (INT64_MAX < Z.abs n) then (Throw OverflowError, w)
  else
    (Return (cursor_limit n (cursor_sort_created_at direction (guides (db w)))),
     logged (Find Guides) w).

(** [{"$unwind": "$tags"}]: one row per (guide, tag); a guide without tags
    yields no row. *)
Definition unwind_tags (docs : list GuideDoc.t) : list (GuideDoc.t * Tag.t) :=
  docs ≫= λ g, (λ t, (g, t)) <$> GuideDoc.tags g.

(** [{"$group": {"_id": "$tags.name"}}]: one output document per distinct
    key; [groups] are the keys met so far. *)
Fixpoint group_by_tag_name (rows : list (GuideDoc.t * Tag.t)) (groups : list string)
  : list string :=
  match rows with
  | [] => groups
  | (_, t) :: rows' =>
      group_by_tag_name rows'
        (if decide (Tag.name t ∈ groups) then groups else groups ++ [Tag.name t])
  end.

(** [{"$count": "count"}]: a single document holding the number of input
    documents, and no document at all when there is no input. *)
Definition count_stage {A} (docs : list A) : list nat :=
  match docs with
  | [] => []
  | _ :: _ => [length docs]
  end.

(** [db.guides.aggregate(pipeline).to_list(n)] for the pipeline of lines 89-93. *)
Definition guides_aggregate_tag_names (to_list : nat) : M (list nat) := λ w,
  (Return (take to_list
             (count_stage (group_by_tag_name (unwind_tags (guides (db w))) []))),
   logged (Aggregate Guides) w).

(** [insert_one]'s reply.  [inserted_id] is [None] when the reply carries
    nothing truthy there; an [ObjectId] itself is always truthy. *)
Record InsertOneResult := mkInsertOneResult { inserted_id : option ObjectId }.

(** What [db.subscribers.insert_one] does is the adapter's: given the id
    generator and the collection, the reply, the new generator and the new
    collection. *)
Class StoreAdapter := adapter_insert_one :
  N → list SubscriberDoc.t → Subscriber.t →
  InsertOneResult * N * list SubscriberDoc.t.

(** The driver as motor/pymongo implement it: a document without [_id]
    gets a fresh ObjectId, is encoded (its datetime cut to the
    millisecond), appended, and the id is reported. *)
Definition motor_insert_one : StoreAdapter := λ counter coll doc,
  let oid := mkObjectId counter in
  (mkInsertOneResult (Some oid), N.succ counter,
   coll ++ [SubscriberDoc.mk oid (Subscriber.email doc)
              (bson_datetime (Subscriber.subscribed_at doc))]).

(** An adapter whose reply carries no id and which stores nothing. *)
Definition silent_insert_one : StoreAdapter := λ counter coll doc,
  (mkInsertOneResult None, counter, coll).

(** EmailStr validation (pydantic / email-validator): [None] for a
    malformed address, otherwise the normalised address the handler gets. *)
Class EmailValidator := validate_email : string → option string.

Fixpoint count_at (s : string) : nat :=
  match s with
  | EmptyString => O
  | String c s' => (if Ascii.eqb c "@" then 1 else 0)%nat + count_at s'
  end.

(** A coarse validator for examples: exactly one [@], no normalisation. *)
Definition one_at_validator : EmailValidator := λ s,
  if decide (count_at s = 1%nat) then Some s else None.

(** ** The handlers of app/main.py *)

Section Handlers.
Context `{adapter : !StoreAdapter}.

(** [db.subscribers.insert_one(doc)] through the adapter. *)
Definition subscribers_insert_one (doc : Subscriber.t) : M InsertOneResult := λ w,
  let '(result, counter', coll') :=
    adapter_insert_one (oid_counter w) (subscribers (db w)) doc in
  (Return result,
   mkWorld (mkDatabase (guides (db w)) (categories (db w)) coll')
           (oplog w ++ [InsertOne Subscribers doc])
           (clock w) (imported_at w) counter').

Definition get_guide_count : M nat := guides_count_documents QAny.

Definition get_category_count : M nat := categories_count_documents.

Definition get_unique_technologies_count : M nat :=
  result ← guides_aggregate_tag_names 1;
  mret (match result with
        | count :: _ => count
        | [] => 0%nat
        end).

Definition get_stats : M Stats.t :=
  guides ← get_guide_count;
  categories ← get_category_count;
  technologies ← get_unique_technologies_count;
  mret (Stats.mk guides categories technologies).

Definition get_featured_guide : M GuideOut.t :=
  guide ← guides_find_one (QFeatured true);
  match guide with
  | None =>
      raise (mkHTTPException HTTP_404_NOT_FOUND "No featured guide found")
  | Some guide => mret (GuideOut.mk guide (ObjectId_str (GuideDoc._id guide)))
  end.

Definition get_categories : M (list CategoryOut.t) :=
  cursor ← categories_find;
  for_append cursor
    (λ category,
       guide_count ←
         guides_count_documents
           (QCategoryId (ObjectId_str (CategoryDoc._id category)));
       mret (CategoryOut.mk category
               (ObjectId_str (CategoryDoc._id category)) guide_count))
    [].

Definition get_latest_guides_default_limit : Z := 2.

Definition get_latest_guides (limit : Z) : M (list GuideOut.t) :=
  cursor ← guides_find_sort_limit (-1) limit;
  for_append cursor
    (λ guide, mret (GuideOut.mk guide (ObjectId_str (GuideDoc._id guide))))
    [].

Definition subscribe_to_newsletter (email : string) : M (list (string * string)) :=
  existing ← subscribers_find_one email;
  match existing with
  | Some _ =>
      raise (mkHTTPException HTTP_400_BAD_REQUEST "Email already subscribed")
  | None =>
      now ← utcnow;
      let subscriber := Subscriber.mk email now in
      result ← subscribers_insert_one subscriber;
      match inserted_id result with
      | None =>
          raise (mkHTTPException HTTP_500_INTERNAL_SERVER_ERROR
                   "Subscription failed")
      | Some _ => mret [("message", "Subscription successful")]
      end
  end.

(** ** The routes: what FastAPI does around a handler *)

Inductive Response (A : Type) :=
  | JSONResponse (status_code : Z) (content : A)
  | ErrorResponse (status_code : Z) (detail : string)
  | RequestValidationError
  | InternalServerError.

Definition HTTP_200_OK : Z := 200.
Definition HTTP_422_UNPROCESSABLE_ENTITY : Z := 422.

Definition response_status {A} (r : Response A) : Z :=
  match r with
  | JSONResponse _ s _ => s
  | ErrorResponse _ s _ => s
  | RequestValidationError _ => HTTP_422_UNPROCESSABLE_ENTITY
  | InternalServerError _ => HTTP_500_INTERNAL_SERVER_ERROR
  end.

(** A handler's return value is sent with the route's status code; an
    [HTTPException] becomes an error response with its own code; any other
    exception is answered 500 by the server. *)
Definition serve {A} (status_code : Z) (handler : M A) (w : World)
  : Response A * World :=
  match handler w with
  | (Return a, w') => (JSONResponse A status_code a, w')
  | (Raise (mkHTTPException s d), w') => (ErrorResponse A s d, w')
  | (Throw _, w') => (InternalServerError A, w')
  end.

Definition GET_stats := serve HTTP_200_OK get_stats.
Definition GET_guides_featured := serve HTTP_200_OK get_featured_guide.
Definition GET_categories := serve HTTP_200_OK get_categories.

(** [limit: int = 2]: an absent query parameter takes the default. *)
Definition GET_guides_latest (limit : option Z) :=
  serve HTTP_200_OK
    (get_latest_guides (default get_latest_guides_default_limit limit)).

(** [email: EmailStr]: the parameter is validated before the handler
    body runs; a malformed one is answered without calling it. *)
Definition POST_newsletter_subscribe `{validator : !EmailValidator} (email : string)
  : World → Response (list (string * string)) * World :=
  match validate_email email with
  | None => λ w, (RequestValidationError _, w)
  | Some e => serve HTTP_201_CREATED (subscribe_to_newsletter e)
  end.
End Handlers.

Arguments JSONResponse {A} status_code content.
Arguments ErrorResponse {A} status_code detail.
Arguments RequestValidationError {A}.
Arguments InternalServerError {A}.

(** ** The development seed ([startup_db_client]) as a concrete world *)

(** The two guides of lines 174-202 as the store holds them, with the ids
    the driver gave them, when the clock read [t] while the first guide was
    built and a millisecond more while the second was. *)
Definition seed_guides (t : datetime) : list GuideDoc.t :=
  [ GuideDoc.mk (mkObjectId 1) "Nextcloud mit Redis & MySQL"
      "Komplettanleitung für eine performante Nextcloud-Installation mit Docker, Redis Caching und MySQL-Datenbank."
      None "fas fa-cloud" "blue"
      [Tag.mk "Docker" "blue"; Tag.mk "MySQL" "green"; Tag.mk "Redis" "red"]
      true (bson_datetime t) (bson_datetime t) None;
    GuideDoc.mk (mkObjectId 2) "Sicherheit mit Fail2Ban"
      "So schützt du deine Server vor Brute-Force-Angriffen mit Fail2Ban und automatisierten Regeln."
      None "fas fa-shield-alt" "green"
      [Tag.mk "Sicherheit" "gray"; Tag.mk "Ubuntu" "yellow"]
      false (bson_datetime (t + 1000)) (bson_datetime (t + 1000)) None ].

Definition seed_categories : list CategoryDoc.t :=
  [ CategoryDoc.mk (mkObjectId 3) "Cloud & Storage"
      "Nextcloud, Owncloud, Samba und andere Speicherlösungen für deine Daten."
      "fas fa-cloud" "blue";
    CategoryDoc.mk (mkObjectId 4) "Datenbanken"
      "MySQL, PostgreSQL, MongoDB und andere Datenbank-Systeme."
      "fas fa-database" "green";
    CategoryDoc.mk (mkObjectId 5) "Container"
      "Docker, Portainer, LXC und andere Container-Technologien."
      "fas fa-boxes" "purple" ].

(** A world holding the seed and no subscriber: ids 1 to 5 are given out,
    the module was imported at 1000 and the clock now reads 1002. *)
Definition seeded_world : World :=
  mkWorld (mkDatabase (seed_guides 1000) seed_categories []) [] 1002 1000 6.

(** ** Vocabulary of the statements *)

(** The world after the driver calls [ops], nothing else touched. *)
Definition log_all (ops : list StoreOp) (w : World) : World :=
  mkWorld (db w) (oplog w ++ ops) (clock w) (imported_at w) (oid_counter w).

(** Every tag name of every guide, with repetitions, in document order. *)
Definition tag_names (docs : list GuideDoc.t) : list string :=
  docs ≫= λ g, Tag.name <$> GuideDoc.tags g.

(** The set of distinct tag names across all guides. *)
Definition distinct_tag_names (docs : list GuideDoc.t) : gset string :=
  list_to_set (tag_names docs).

(** The guides that refer to the category with id [cid]. *)
Definition guides_of_category (cid : string) (docs : list GuideDoc.t)
  : list GuideDoc.t :=
  filter (λ g, GuideDoc.category_id g = Some cid) docs.

Definition has_subscriber (e : string) (w : World) : Prop :=
  ∃ s, s ∈ subscribers (db w) ∧ SubscriberDoc.email s = e.

Definition guide_out (g : GuideDoc.t) : GuideOut.t :=
  GuideOut.mk g (ObjectId_str (GuideDoc._id g)).

Definition category_out (docs : list GuideDoc.t) (c : CategoryDoc.t)
  : CategoryOut.t :=
  CategoryOut.mk c (ObjectId_str (CategoryDoc._id c))
    (length (filter (guide_matches (QCategoryId (ObjectId_str (CategoryDoc._id c))))
               docs)).

(** A driver call that only reads. *)
Definition is_read (op : StoreOp) : bool :=
  match op with
  | InsertOne _ _ => false
  | _ => true
  end.

(** The sentence of the specification, as it is written: at most [N]
    guides for every [N ≥ 0], newest first. *)
Definition latest_guides_claim : Prop :=
  ∀ (w : World) (N : Z), 0 ≤ N →
    ∃ out w',
      GET_guides_latest (Some N) w = (JSONResponse HTTP_200_OK out, w')
      ∧ Z.of_nat (length out) ≤ N
      ∧ StronglySorted created_at_desc (GuideOut.doc <$> out).

(** From [w] to [w'] the driver was only asked to read. *)
Definition only_reads_since (w w' : World) : Prop :=
  ∃ ops, oplog w' = oplog w ++ ops ∧ Forall (λ op, is_read op = true) ops.

(** What the adapter does with the document [subscribe] builds for [e]
    in world [w]: reply, next id generator, new collection. *)
Definition insert_of `{adapter : !StoreAdapter} (e : string) (w : World)
  : InsertOneResult * N * list SubscriberDoc.t :=
  adapter_insert_one (oid_counter w) (subscribers (db w)) (Subscriber.mk e (clock w)).

(** The world after that insert was made, following the existence check. *)
Definition after_insert `{adapter : !StoreAdapter} (e : string) (w : World) : World :=
  mkWorld (mkDatabase (guides (db w)) (categories (db w)) (snd (insert_of e w)))
    (oplog w ++ [FindOne Subscribers;
                 InsertOne Subscribers (Subscriber.mk e (clock w))])
    (clock w) (imported_at w) (snd (fst (insert_of e w))).

(** The seeded world after "a@b.de" subscribed through the motor driver
    while the clock read [t]. *)
Definition subscribed_world (t : datetime) : World :=
  after_insert (adapter := motor_insert_one) "a@b.de" (advance_clock t seeded_world).

(** ** Startup ([startup_db_client]) and sequences of requests *)

(** What the BSON encoding does to a guide: both datetimes are cut to the
    millisecond.  A category holds nothing the encoding changes. *)
Definition GuideDoc_bson (g : GuideDoc.t) : GuideDoc.t :=
  GuideDoc.mk (GuideDoc._id g) (GuideDoc.title g) (GuideDoc.description g)
    (GuideDoc.content g) (GuideDoc.icon g) (GuideDoc.color g) (GuideDoc.tags g)
    (GuideDoc.featured g) (bson_datetime (GuideDoc.created_at g))
    (bson_datetime (GuideDoc.updated_at g)) (GuideDoc.category_id g).

Definition CategoryDoc_bson (c : CategoryDoc.t) : CategoryDoc.t := c.

(** [insert_many] as motor/pymongo implement it: the documents get the
    next ObjectIds in list order, are encoded ([bson]) and appended to the
    collection. *)
Fixpoint motor_insert_many {A} (bson : A → A) (counter : N) (coll : list A)
    (docs : list (ObjectId → A)) : N * list A :=
  match docs with
  | [] => (counter, coll)
  | doc :: rest =>
      motor_insert_many bson (N.succ counter)
        (coll ++ [bson (doc (mkObjectId counter))]) rest
  end.

(** The list literal of lines 174-202, each document still waiting for its
    [_id].  [t1 .. t4] are the four readings of [datetime.utcnow()], in the
    order the literal evaluates them. *)
Definition startup_guides (t1 t2 t3 t4 : datetime) : list (ObjectId → GuideDoc.t) :=
  [ λ oid, GuideDoc.mk oid "Nextcloud mit Redis & MySQL"
      "Komplettanleitung für eine performante Nextcloud-Installation mit Docker, Redis Caching und MySQL-Datenbank."
      None "fas fa-cloud" "blue"
      [Tag.mk "Docker" "blue"; Tag.mk "MySQL" "green"; Tag.mk "Redis" "red"]
      true t1 t2 None;
    λ oid, GuideDoc.mk oid "Sicherheit mit Fail2Ban"
      "So schützt du deine Server vor Brute-Force-Angriffen mit Fail2Ban und automatisierten Regeln."
      None "fas fa-shield-alt" "green"
      [Tag.mk "Sicherheit" "gray"; Tag.mk "Ubuntu" "yellow"]
      false t3 t4 None ].

(** The list literal of lines 205-224. *)
Definition startup_categories : list (ObjectId → CategoryDoc.t) :=
  [ λ oid, CategoryDoc.mk oid "Cloud & Storage"
      "Nextcloud, Owncloud, Samba und andere Speicherlösungen für deine Daten."
      "fas fa-cloud" "blue";
    λ oid, CategoryDoc.mk oid "Datenbanken"
      "MySQL, PostgreSQL, MongoDB und andere Datenbank-Systeme."
      "fas fa-database" "green";
    λ oid, CategoryDoc.mk oid "Container"
      "Docker, Portainer, LXC und andere Container-Technologien."
      "fas fa-boxes" "purple" ].

(** [startup_db_client]: each of the two collections is seeded when
    [count_documents({})] finds it empty.  It runs before the first
    request; the handlers' log of driver calls is left as it is. *)
Definition startup_db_client (t1 t2 t3 t4 : datetime) (w : World) : World :=
  let seeded_guides :=
    if decide (length (filter (guide_matches QAny) (guides (db w))) = 0%nat)
    then motor_insert_many GuideDoc_bson (oid_counter w) (guides (db w))
           (startup_guides t1 t2 t3 t4)
    else (oid_counter w, guides (db w)) in
  let seeded_categories :=
    if decide (length (categories (db w)) = 0%nat)
    then motor_insert_many CategoryDoc_bson (fst seeded_guides) (categories (db w))
           startup_categories
    else (fst seeded_guides, categories (db w)) in
  mkWorld
    (mkDatabase (snd seeded_guides) (snd seeded_categories) (subscribers (db w)))
    (oplog w) (clock w) (imported_at w) (fst seeded_categories).

(** A client posting the addresses one after the other to
    [/newsletter/subscribe]: the responses in order, and the final world. *)
Fixpoint subscribe_all `{adapter : !StoreAdapter} `{validator : !EmailValidator}
    (emails : list string) (w : World)
  : list (Response (list (string * string))) * World :=
  match emails with
  | [] => ([], w)
  | email :: rest =>
      let answered := POST_newsletter_subscribe email w in
      let others := subscribe_all rest (snd answered) in
      (fst answered :: fst others, snd others)
  end.

(** No two subscribers share an address. *)
Definition emails_unique (w : World) : Prop :=
  NoDup (SubscriberDoc.email <$> subscribers (db w)).

(** The number of [(guide, tag)] pairs over all guides. *)
Definition total_tags (docs : list GuideDoc.t) : nat :=
  length (tag_names docs).

(** A world whose three collections are empty. *)
Definition empty_world : World := mkWorld (mkDatabase [] [] []) [] 0 0 0.

(** The seeded world with the two guides stored in the other order. *)
Definition seeded_world_reordered : World :=
  mkWorld (mkDatabase (reverse (seed_guides 1000)) seed_categories []) [] 1002 1000 6.

(** ** Running the monad *)

Ltac run := unfold mbind, M_bind, mret, M_ret, raise, utcnow; simpl.

Lemma log_all_nil w : log_all [] w = w.
Proof. destruct w; unfold log_all; simpl. by rewrite app_nil_r. Qed.

Lemma logged_log_all op ops w :
  logged op (log_all ops w) = log_all (ops ++ [op]) w.
Proof. unfold logged, log_all; simpl. by rewrite app_assoc. Qed.

Lemma for_append_pure {A B} (h : A → B) (cursor : list A) (xs : list B) w :
  for_append cursor (λ x, mret (h x)) xs w = (Return (xs ++ (h <$> cursor)), w).
Proof.
  revert xs. induction cursor as [|x rest IH]; intros xs; simpl.
  - by rewrite app_nil_r.
  - run. rewrite IH. by rewrite <- app_assoc.
Qed.

Lemma for_append_reads {A B} (body : A → M B) (f : A → B) (op : A → StoreOp)
    (cursor : list A) (xs : list B) ops w :
  (∀ x ops', body x (log_all ops' w) = (Return (f x), log_all (ops' ++ [op x]) w)) →
  for_append cursor body xs (log_all ops w)
  = (Return (xs ++ (f <$> cursor)), log_all (ops ++ (op <$> cursor)) w).
Proof.
  intros Hbody. revert xs ops.
  induction cursor as [|x rest IH]; intros xs ops; cbn [for_append].
  - unfold mret, M_ret. simpl. by rewrite !app_nil_r.
  - unfold mbind, M_bind. rewrite Hbody, IH. simpl. by rewrite <- !app_assoc.
Qed.

Lemma get_categories_run w :
  get_categories w
  = (Return (category_out (guides (db w)) <$> categories (db w)),
     log_all (Find Categories
              :: ((λ _, CountDocuments Guides) <$> categories (db w))) w).
Proof.
  unfold get_categories, mbind, M_bind, categories_find.
  change (logged (Find Categories) w) with (log_all [Find Categories] w).
  apply (for_append_reads _ (category_out (guides (db w)))
           (λ _, CountDocuments Guides) (categories (db w)) [] [Find Categories] w).
  intros c ops. unfold guides_count_documents, mret, M_ret.
  by rewrite logged_log_all.
Qed.

Lemma get_latest_guides_run limit w :
  get_latest_guides limit w
  = if decide (INT64_MAX < Z.abs limit) then (Throw OverflowError, w)
    else
      (Return (guide_out <$>
                 cursor_limit limit (cursor_sort_created_at (-1) (guides (db w)))),
       log_all [Find Guides] w).
Proof.
  unfold get_latest_guides, mbind, M_bind, guides_find_sort_limit.
  case_decide; [done|]. apply (for_append_pure guide_out).
Qed.

Lemma get_latest_guides_in_range limit w :
  Z.abs limit ≤ INT64_MAX →
  get_latest_guides limit w
  = (Return (guide_out <$>
               cursor_limit limit (cursor_sort_created_at (-1) (guides (db w)))),
     log_all [Find Guides] w).
Proof. intros Hfits. rewrite get_latest_guides_run. by rewrite decide_False by lia. Qed.

(** ** The seeded database, run *)

Example seeded_stats :
  fst (GET_stats seeded_world) = JSONResponse HTTP_200_OK (Stats.mk 2 3 5).
Proof. reflexivity. Qed.

Example seeded_featured_is_nextcloud :
  match fst (GET_guides_featured seeded_world) with
  | JSONResponse _ out => Some (GuideDoc.title (GuideOut.doc out), GuideOut.id out)
  | _ => None
  end = Some ("Nextcloud mit Redis & MySQL", "000000000000000000000001").
Proof. reflexivity. Qed.

Example seeded_categories_have_no_guides :
  match fst (GET_categories seeded_world) with
  | JSONResponse _ cats => CategoryOut.guide_count <$> cats
  | _ => []
  end = [0; 0; 0]%nat.
Proof. reflexivity. Qed.

Example seeded_latest_default :
  match fst (GET_guides_latest None seeded_world) with
  | JSONResponse _ out => GuideOut.id <$> out
  | _ => []
  end = ["000000000000000000000002"; "000000000000000000000001"].
Proof. reflexivity. Qed.

Example limit_examples :
  cursor_limit 2 [10; 20; 30] = [10; 20]
  ∧ cursor_limit 0 [10; 20; 30] = [10; 20; 30]
  ∧ cursor_limit 5 [10; 20; 30] = [10; 20; 30].
Proof. done. Qed.

(** ** The aggregation pipeline counts distinct tag names *)

Lemma filter_QAny (docs : list GuideDoc.t) :
  filter (guide_matches QAny) docs = docs.
Proof.
  induction docs as [|g docs IH]; [done|].
  rewrite filter_cons_True by done. by rewrite IH.
Qed.

Lemma unwind_tags_names docs :
  (λ row, Tag.name (snd row)) <$> unwind_tags docs = tag_names docs.
Proof.
  unfold unwind_tags, tag_names.
  induction docs as [|g docs IH]; [done|].
  cbn [mbind list_bind]. rewrite fmap_app, IH. f_equal.
  rewrite <- list_fmap_compose. done.
Qed.

Lemma group_by_tag_name_NoDup rows groups :
  NoDup groups → NoDup (group_by_tag_name rows groups).
Proof.
  revert groups. induction rows as [|[g t] rows IH]; intros groups Hnd; simpl.
  - done.
  - apply IH. case_decide; [done|].
    apply NoDup_app. split_and!; [done| |apply NoDup_singleton].
    intros x Hx Hx'. apply list_elem_of_singleton in Hx'. by subst.
Qed.

Lemma group_by_tag_name_elem_of rows groups x :
  x ∈ group_by_tag_name rows groups
  ↔ x ∈ groups ∨ x ∈ ((λ row, Tag.name (snd row)) <$> rows).
Proof.
  revert groups. induction rows as [|[g t] rows IH]; intros groups; simpl.
  - rewrite elem_of_nil. tauto.
  - rewrite IH, elem_of_cons. case_decide as Hin.
    + split; [tauto|]. intros [?|[->|?]]; tauto.
    + rewrite elem_of_app, list_elem_of_singleton. tauto.
Qed.

Lemma group_by_tag_name_length docs :
  length (group_by_tag_name (unwind_tags docs) [])
  = size (distinct_tag_names docs).
Proof.
  unfold distinct_tag_names.
  rewrite <- (size_list_to_set (C := gset string)
                (group_by_tag_name (unwind_tags docs) []))
    by (apply group_by_tag_name_NoDup, NoDup_nil_2).
  f_equal. apply set_eq. intros x.
  rewrite !elem_of_list_to_set, group_by_tag_name_elem_of, unwind_tags_names.
  rewrite elem_of_nil. tauto.
Qed.

Lemma elem_of_distinct_tag_names docs x :
  x ∈ distinct_tag_names docs
  ↔ ∃ g t, g ∈ docs ∧ t ∈ GuideDoc.tags g ∧ Tag.name t = x.
Proof.
  unfold distinct_tag_names, tag_names.
  rewrite elem_of_list_to_set, list_elem_of_bind. split.
  - intros (g & Hx & Hg). apply list_elem_of_fmap in Hx as (t & -> & Ht). eauto.
  - intros (g & t & Hg & Ht & <-). exists g. split; [|done].
    apply list_elem_of_fmap. eauto.
Qed.

Lemma first_count {A} (groups : list A) :
  match take 1 (count_stage groups) with
  | count :: _ => count
  | [] => 0%nat
  end = length groups.
Proof. by destruct groups. Qed.

Lemma bind_Return {A B} (m : M A) (f : A → M B) w a w' :
  m w = (Return a, w') → (m ≫= f) w = f a w'.
Proof. intros Hm. unfold mbind, M_bind. by rewrite Hm. Qed.

Lemma get_guide_count_run ops w :
  get_guide_count (log_all ops w)
  = (Return (length (guides (db w))), log_all (ops ++ [CountDocuments Guides]) w).
Proof.
  unfold get_guide_count, guides_count_documents.
  by rewrite logged_log_all, filter_QAny.
Qed.

Lemma get_category_count_run ops w :
  get_category_count (log_all ops w)
  = (Return (length (categories (db w))),
     log_all (ops ++ [CountDocuments Categories]) w).
Proof.
  unfold get_category_count, categories_count_documents.
  by rewrite logged_log_all.
Qed.

Lemma get_unique_technologies_count_run ops w :
  get_unique_technologies_count (log_all ops w)
  = (Return (size (distinct_tag_names (guides (db w)))),
     log_all (ops ++ [Aggregate Guides]) w).
Proof.
  unfold get_unique_technologies_count.
  erewrite bind_Return; [|unfold guides_aggregate_tag_names; reflexivity].
  unfold mret, M_ret.
  by rewrite first_count, logged_log_all, group_by_tag_name_length.
Qed.

Lemma get_stats_run w :
  get_stats w
  = (Return (Stats.mk (length (guides (db w))) (length (categories (db w)))
               (size (distinct_tag_names (guides (db w))))),
     log_all [CountDocuments Guides; CountDocuments Categories; Aggregate Guides] w).
Proof.
  unfold get_stats. rewrite <- (log_all_nil w) at 1.
  erewrite bind_Return by apply get_guide_count_run.
  erewrite bind_Return by apply get_category_count_run.
  erewrite bind_Return by apply get_unique_technologies_count_run.
  done.
Qed.

(** C1. [get_stats()] returns a [Stats] whose [technologies] field is the
    number of distinct tag names over all guides' tag lists: a name carried
    by several guides is one element of the set and counts once, and when no
    guide has a tag the field is 0. *)
Theorem stats_technologies_counts_distinct_tag_names (w : World) :
  ∃ stats w',
    GET_stats w = (JSONResponse HTTP_200_OK stats, w')
    ∧ Stats.technologies stats = size (distinct_tag_names (guides (db w)))
    ∧ (∀ x, x ∈ distinct_tag_names (guides (db w))
            ↔ ∃ g t, g ∈ guides (db w) ∧ t ∈ GuideDoc.tags g ∧ Tag.name t = x)
    ∧ ((∀ g, g ∈ guides (db w) → GuideDoc.tags g = []) →
       Stats.technologies stats = 0%nat).
Proof.
  unfold GET_stats, serve. rewrite get_stats_run.
  eexists _, _. split; [reflexivity|]. simpl.
  split_and!; [done|apply elem_of_distinct_tag_names|].
  intros Hnone. apply size_empty_iff, elem_of_equiv_empty. intros x Hx.
  apply elem_of_distinct_tag_names in Hx as (g & t & Hg & Ht & _).
  rewrite (Hnone g Hg) in Ht. by apply elem_of_nil in Ht.
Qed.

(** ** Latest guides: sort, then limit *)

Global Instance created_at_desc_total : Total created_at_desc.
Proof. intros g1 g2. unfold created_at_desc. lia. Qed.

Global Instance created_at_desc_trans : Transitive created_at_desc.
Proof. intros g1 g2 g3. unfold created_at_desc. lia. Qed.

Lemma doc_guide_out (l : list GuideDoc.t) : GuideOut.doc <$> (guide_out <$> l) = l.
Proof. rewrite <- list_fmap_compose. apply list_fmap_id. Qed.

Lemma cursor_limit_split {A} (n : Z) (l : list A) :
  cursor_limit n l ++ (if decide (n = 0) then [] else drop (Z.to_nat (Z.abs n)) l) = l.
Proof.
  unfold cursor_limit. case_decide; [apply app_nil_r|apply take_drop].
Qed.

Lemma cursor_limit_length {A} (n : Z) (l : list A) :
  n ≠ 0 → length (cursor_limit n l) = (Z.to_nat (Z.abs n) `min` length l)%nat.
Proof. intros Hn. unfold cursor_limit. rewrite decide_False by done. apply length_take. Qed.

(** C2, as stated, fails: with [limit=0] the cursor is not limited, so on
    the seeded database both guides come back and "at most [N]" is false
    at [N = 0]. *)
Lemma latest_guides_limit_zero_is_unlimited : ¬ latest_guides_claim.
Proof.
  intros Hclaim.
  destruct (Hclaim seeded_world 0 ltac:(lia)) as (out & w' & Hrun & Hlen & _).
  vm_compute in Hrun. injection Hrun as <- _. simpl in Hlen. lia.
Qed.

(** C2 (amended). For every [N ≥ 0] that fits 8 bytes,
    [GET /guides/latest?limit=N] answers 200 with the guides in descending
    [created_at] order, every returned guide at least as new as every guide
    left out.  For [N > 0] it returns [min N (number of guides)] guides, so
    at most [N]; for [N = 0] the cursor is unlimited and every guide is
    returned.  A larger [N] cannot be encoded by the driver and the request
    is answered 500.  Without the query parameter the limit is 2. *)
Theorem latest_guides_sorted_and_limited (w : World) (N : Z) :
  0 ≤ N →
  (N ≤ INT64_MAX →
   ∃ out rest w',
     GET_guides_latest (Some N) w = (JSONResponse HTTP_200_OK out, w')
     ∧ (GuideOut.doc <$> out) ++ rest ≡ₚ guides (db w)
     ∧ StronglySorted created_at_desc ((GuideOut.doc <$> out) ++ rest)
     ∧ (0 < N → length out = (Z.to_nat N `min` length (guides (db w)))%nat
                ∧ Z.of_nat (length out) ≤ N)
     ∧ (N = 0 → rest = [] ∧ length out = length (guides (db w))))
  ∧ (INT64_MAX < N →
     fst (GET_guides_latest (Some N) w) = InternalServerError)
  ∧ GET_guides_latest None w = GET_guides_latest (Some 2) w.
Proof.
  intros HN. split; [|split; [|done]].
  - intros Hfits. unfold GET_guides_latest, serve. cbn [default]. unfold id.
    rewrite get_latest_guides_in_range by lia.
    set (sorted := cursor_sort_created_at (-1) (guides (db w))).
    assert (Hperm : sorted ≡ₚ guides (db w)) by apply merge_sort_Permutation.
    assert (Hsorted : StronglySorted created_at_desc sorted)
      by apply (StronglySorted_merge_sort created_at_desc).
    exists (guide_out <$> cursor_limit N sorted),
      (if decide (N = 0) then [] else drop (Z.to_nat (Z.abs N)) sorted),
      (log_all [Find Guides] w).
    split; [reflexivity|].
    rewrite doc_guide_out, cursor_limit_split, length_fmap.
    split_and!; try done.
    + intros Hpos. rewrite cursor_limit_length by lia.
      rewrite Z.abs_eq by lia. rewrite <- (Permutation_length Hperm). lia.
    + intros ->. rewrite decide_True by done. split; [done|].
      unfold cursor_limit. rewrite decide_True by done.
      apply Permutation_length, Hperm.
  - intros Hbig. unfold GET_guides_latest, serve. cbn [default]. unfold id.
    rewrite get_latest_guides_run. by rewrite decide_True by lia.
Qed.

Lemma latest_guides_sorted_and_limited_witness :
  0 ≤ 1 ∧ 1 ≤ INT64_MAX ∧
  ∃ out rest w',
    GET_guides_latest (Some 1) seeded_world = (JSONResponse HTTP_200_OK out, w')
    ∧ (GuideOut.doc <$> out) ++ rest ≡ₚ guides (db seeded_world)
    ∧ StronglySorted created_at_desc ((GuideOut.doc <$> out) ++ rest)
    ∧ (0 < 1 → length out = (Z.to_nat 1 `min` length (guides (db seeded_world)))%nat
               ∧ Z.of_nat (length out) ≤ 1)
    ∧ (1 = 0 → rest = [] ∧ length out = length (guides (db seeded_world))).
Proof.
  assert (Hpos : 0 ≤ 1) by lia. assert (Hfits : 1 ≤ INT64_MAX) by done.
  split; [exact Hpos|]. split; [exact Hfits|].
  exact (proj1 (latest_guides_sorted_and_limited seeded_world 1 Hpos) Hfits).
Defined.

Example limit_at_the_driver_bound :
  response_status (fst (GET_guides_latest (Some INT64_MAX) seeded_world))
  = HTTP_200_OK
  ∧ response_status (fst (GET_guides_latest (Some (INT64_MAX + 1)) seeded_world))
    = HTTP_500_INTERNAL_SERVER_ERROR
  ∧ response_status (fst (GET_guides_latest (Some (- INT64_MAX - 1)) seeded_world))
    = HTTP_500_INTERNAL_SERVER_ERROR.
Proof.
  split; [|split; reflexivity].
  unfold GET_guides_latest, serve. cbn [default]. unfold id.
  by rewrite get_latest_guides_in_range by done.
Qed.

(** ** The featured guide *)

Lemma head_filter_None {A} (P : A → Prop) `{!∀ x, Decision (P x)} (l : list A) :
  head (filter P l) = None ↔ ∀ x, x ∈ l → ¬ P x.
Proof.
  rewrite head_None. split.
  - intros Hnil x Hx HP. by eapply filter_nil_not_elem_of.
  - intros Hnone. induction l as [|x l IH]; [done|].
    rewrite filter_cons_False by (apply Hnone; left).
    apply IH. intros y Hy. apply Hnone. by right.
Qed.

Lemma head_filter_elem_of {A} (P : A → Prop) `{!∀ x, Decision (P x)} (l : list A) x :
  head (filter P l) = Some x → P x ∧ x ∈ l.
Proof. intros Hx. apply head_Some_elem_of in Hx. by apply list_elem_of_filter in Hx. Qed.

Lemma get_featured_guide_run w :
  get_featured_guide w
  = (match head (filter (guide_matches (QFeatured true)) (guides (db w))) with
     | Some guide => Return (guide_out guide)
     | None => Raise (mkHTTPException HTTP_404_NOT_FOUND "No featured guide found")
     end,
     log_all [FindOne Guides] w).
Proof.
  unfold get_featured_guide, mbind, M_bind, guides_find_one.
  by destruct (head _).
Qed.

(** C4. [get_featured_guide()] answers 404 exactly when no stored guide has
    [featured = true]; otherwise it answers 200 with a stored guide whose
    [featured] field is true. *)
Theorem featured_guide_found_or_404 (w : World) :
  (response_status (fst (GET_guides_featured w)) = HTTP_404_NOT_FOUND
   ↔ ∀ g, g ∈ guides (db w) → GuideDoc.featured g = false)
  ∧ (fst (GET_guides_featured w) = ErrorResponse HTTP_404_NOT_FOUND "No featured guide found"
     ∨ ∃ out,
         fst (GET_guides_featured w) = JSONResponse HTTP_200_OK out
         ∧ GuideDoc.featured (GuideOut.doc out) = true
         ∧ GuideOut.doc out ∈ guides (db w)
         ∧ GuideOut.id out = ObjectId_str (GuideDoc._id (GuideOut.doc out))).
Proof.
  unfold GET_guides_featured, serve. rewrite get_featured_guide_run.
  destruct (head _) as [guide|] eqn:Hhead; simpl.
  - apply head_filter_elem_of in Hhead as [Hfeat Hin].
    simpl in Hfeat. apply bool_decide_unpack in Hfeat.
    split.
    + split; [done|]. intros Hnone. rewrite (Hnone guide Hin) in Hfeat. done.
    + right. by exists (guide_out guide).
  - split; [|by left]. split; [|done]. intros _ g Hg.
    pose proof (proj1 (head_filter_None _ _) Hhead g Hg) as Hno. simpl in Hno.
    destruct (GuideDoc.featured g); [|done].
    exfalso. apply Hno. by apply bool_decide_pack.
Qed.

(** ** Categories and their live guide counts *)

Lemma length_guides_of_category cid docs :
  length (filter (guide_matches (QCategoryId cid)) docs)
  = length (guides_of_category cid docs).
Proof.
  unfold guides_of_category. f_equal. apply list_filter_iff. intros g. simpl.
  split; [apply bool_decide_unpack|apply bool_decide_pack].
Qed.

(** C5. Every category [C] returned by [list_categories()] carries as
    [guide_count] the number of stored guides whose [category_id] equals
    [C]'s id, which is 0 when no guide's [category_id] matches. *)
Theorem categories_carry_guide_count (w : World) :
  ∃ cats w',
    GET_categories w = (JSONResponse HTTP_200_OK cats, w')
    ∧ CategoryOut.doc <$> cats = categories (db w)
    ∧ ∀ C, C ∈ cats →
        CategoryOut.id C = ObjectId_str (CategoryDoc._id (CategoryOut.doc C))
        ∧ CategoryOut.guide_count C
          = length (guides_of_category (CategoryOut.id C) (guides (db w)))
        ∧ ((∀ g, g ∈ guides (db w) →
                 GuideDoc.category_id g ≠ Some (CategoryOut.id C)) →
           CategoryOut.guide_count C = 0%nat).
Proof.
  unfold GET_categories, serve. rewrite get_categories_run.
  eexists _, _. split; [reflexivity|]. split.
  - rewrite <- list_fmap_compose. apply list_fmap_id.
  - intros C HC. apply list_elem_of_fmap in HC as (c & -> & Hc).
    unfold category_out.
    cbn [CategoryOut.id CategoryOut.guide_count CategoryOut.doc].
    rewrite length_guides_of_category. split_and!; [done..|].
    intros Hnone. unfold guides_of_category.
    apply length_zero_iff_nil, head_None. apply head_filter_None.
    intros g Hg. by apply Hnone.
Qed.

(** ** Reads do not write *)

Lemma only_reads_since_log_all ops w :
  Forall (λ op, is_read op = true) ops → only_reads_since w (log_all ops w).
Proof. intros Hops. by exists ops. Qed.

Lemma db_log_all ops w : db (log_all ops w) = db w.
Proof. done. Qed.

Lemma snd_serve {A} (status_code : Z) (handler : M A) w :
  snd (serve status_code handler w) = snd (handler w).
Proof. unfold serve. by destruct (handler w) as [[a|[s d]|e] w']. Qed.

Lemma get_latest_guides_world limit w :
  ∃ ops, snd (get_latest_guides limit w) = log_all ops w
         ∧ Forall (λ op, is_read op = true) ops.
Proof.
  rewrite get_latest_guides_run. case_decide.
  - exists []. by rewrite log_all_nil.
  - exists [Find Guides]. split; [done|]. by repeat constructor.
Qed.

(** C9. [get_stats], [get_featured_guide], [list_categories] and
    [list_latest_guides] leave the three collections as they were: the
    database after the call is the database before it, and every driver
    call they make is a read. *)
Theorem reads_leave_store_unchanged (w : World) (limit : option Z) :
  (db (snd (GET_stats w)) = db w
   ∧ db (snd (GET_guides_featured w)) = db w
   ∧ db (snd (GET_categories w)) = db w
   ∧ db (snd (GET_guides_latest limit w)) = db w)
  ∧ (only_reads_since w (snd (GET_stats w))
     ∧ only_reads_since w (snd (GET_guides_featured w))
     ∧ only_reads_since w (snd (GET_categories w))
     ∧ only_reads_since w (snd (GET_guides_latest limit w))).
Proof.
  destruct (get_latest_guides_world
              (default get_latest_guides_default_limit limit) w)
    as (ops & Hlatest & Hops).
  unfold GET_stats, GET_guides_featured, GET_categories, GET_guides_latest.
  rewrite !snd_serve, Hlatest.
  rewrite get_stats_run, get_featured_guide_run, get_categories_run.
  cbn [snd]. rewrite !db_log_all.
  split; [done|]. split_and!; apply only_reads_since_log_all; [| | |done].
  - by repeat constructor.
  - by repeat constructor.
  - constructor; [done|]. apply Forall_fmap, Forall_forall. done.
Qed.

(** ** Newsletter subscription *)

Lemma find_subscriber_Some e w s :
  head (filter (subscriber_matches e) (subscribers (db w))) = Some s →
  has_subscriber e w.
Proof.
  intros Hs. apply head_filter_elem_of in Hs as [He Hin].
  exists s. split; [done|]. by apply bool_decide_unpack in He.
Qed.

Lemma find_subscriber_None e w :
  head (filter (subscriber_matches e) (subscribers (db w))) = None →
  ¬ has_subscriber e w.
Proof.
  intros Hnone (s & Hin & He).
  apply (proj1 (head_filter_None _ _) Hnone s Hin).
  by apply bool_decide_pack.
Qed.

Lemma subscribe_run `{!StoreAdapter} e w :
  subscribe_to_newsletter e w
  = match head (filter (subscriber_matches e) (subscribers (db w))) with
    | Some _ =>
        (Raise (mkHTTPException HTTP_400_BAD_REQUEST "Email already subscribed"),
         log_all [FindOne Subscribers] w)
    | None =>
        (match inserted_id (fst (fst (insert_of e w))) with
         | None => Raise (mkHTTPException HTTP_500_INTERNAL_SERVER_ERROR
                            "Subscription failed")
         | Some _ => Return [("message", "Subscription successful")]
         end,
         after_insert e w)
    end.
Proof.
  unfold subscribe_to_newsletter, mbind, M_bind, subscribers_find_one.
  destruct (head _); [done|].
  unfold utcnow, subscribers_insert_one, after_insert, insert_of. simpl.
  destruct (adapter_insert_one _ _ _) as [[[[oid|]] counter'] coll']; simpl;
    unfold raise, mret, M_ret; by rewrite <- app_assoc.
Qed.

Lemma subscribe_conflict `{!StoreAdapter} e w :
  has_subscriber e w →
  subscribe_to_newsletter e w
  = (Raise (mkHTTPException HTTP_400_BAD_REQUEST "Email already subscribed"),
     log_all [FindOne Subscribers] w).
Proof.
  intros Hhas. rewrite subscribe_run.
  destruct (head _) eqn:Hhead; [done|].
  by apply find_subscriber_None in Hhead.
Qed.

Lemma subscribe_fresh `{!StoreAdapter} e w :
  ¬ has_subscriber e w →
  subscribe_to_newsletter e w
  = (match inserted_id (fst (fst (insert_of e w))) with
     | None => Raise (mkHTTPException HTTP_500_INTERNAL_SERVER_ERROR
                        "Subscription failed")
     | Some _ => Return [("message", "Subscription successful")]
     end,
     after_insert e w).
Proof.
  intros Hfresh. rewrite subscribe_run.
  destruct (head _) eqn:Hhead; [|done].
  by apply find_subscriber_Some in Hhead.
Qed.

Lemma has_subscriber_dec e w : has_subscriber e w ∨ ¬ has_subscriber e w.
Proof.
  destruct (head (filter (subscriber_matches e) (subscribers (db w)))) eqn:Hhead.
  - left. by eapply find_subscriber_Some.
  - right. by apply find_subscriber_None.
Qed.

Lemma POST_valid `{!StoreAdapter} `{!EmailValidator} raw e :
  validate_email raw = Some e →
  POST_newsletter_subscribe raw = serve HTTP_201_CREATED (subscribe_to_newsletter e).
Proof. intros Hv. unfold POST_newsletter_subscribe. by rewrite Hv. Qed.

Lemma motor_insert_of e w :
  insert_of (adapter := motor_insert_one) e w
  = (mkInsertOneResult (Some (mkObjectId (oid_counter w))), N.succ (oid_counter w),
     subscribers (db w)
     ++ [SubscriberDoc.mk (mkObjectId (oid_counter w)) e (bson_datetime (clock w))]).
Proof. done. Qed.

(** C3. With the motor driver, subscribing an address nobody holds answers
    201, and subscribing it again, or in any world where a subscriber
    already holds it, answers 400 with the detail "Email already
    subscribed", whose last 18 characters are "already subscribed". *)
Theorem subscribe_then_conflict (validator : EmailValidator) (raw e : string)
    (w : World) :
  validate_email raw = Some e →
  ¬ has_subscriber e w →
  ∃ w1,
    POST_newsletter_subscribe (adapter := motor_insert_one) raw w
    = (JSONResponse HTTP_201_CREATED [("message", "Subscription successful")], w1)
    ∧ has_subscriber e w1
    ∧ fst (POST_newsletter_subscribe (adapter := motor_insert_one) raw w1)
      = ErrorResponse HTTP_400_BAD_REQUEST "Email already subscribed"
    ∧ (∀ w2, has_subscriber e w2 →
         fst (POST_newsletter_subscribe (adapter := motor_insert_one) raw w2)
         = ErrorResponse HTTP_400_BAD_REQUEST "Email already subscribed")
    ∧ substring 6 18 "Email already subscribed" = "already subscribed".
Proof.
  intros Hvalid Hfresh. rewrite (POST_valid raw e Hvalid).
  assert (Hconflict : ∀ w2, has_subscriber e w2 →
            fst (serve HTTP_201_CREATED
                   (subscribe_to_newsletter (adapter := motor_insert_one) e) w2)
            = ErrorResponse HTTP_400_BAD_REQUEST "Email already subscribed").
  { intros w2 Hhas. unfold serve. by rewrite subscribe_conflict. }
  assert (Hnow : has_subscriber e (after_insert (adapter := motor_insert_one) e w)).
  { exists (SubscriberDoc.mk (mkObjectId (oid_counter w)) e (bson_datetime (clock w))).
    split; [|done]. unfold after_insert. rewrite motor_insert_of. simpl.
    apply elem_of_app. right. by apply list_elem_of_singleton. }
  exists (after_insert (adapter := motor_insert_one) e w).
  split_and!; [|done|by apply Hconflict|done|done].
  unfold serve. rewrite subscribe_fresh by done. by rewrite motor_insert_of.
Qed.

Lemma subscribe_then_conflict_witness :
  validate_email (EmailValidator := one_at_validator) "a@b.de" = Some "a@b.de"
  ∧ ¬ has_subscriber "a@b.de" seeded_world
  ∧ ∃ w1,
      POST_newsletter_subscribe (adapter := motor_insert_one)
        (validator := one_at_validator) "a@b.de" seeded_world
      = (JSONResponse HTTP_201_CREATED [("message", "Subscription successful")], w1)
      ∧ fst (POST_newsletter_subscribe (adapter := motor_insert_one)
               (validator := one_at_validator) "a@b.de" w1)
        = ErrorResponse HTTP_400_BAD_REQUEST "Email already subscribed".
Proof.
  assert (Hvalid : validate_email (EmailValidator := one_at_validator) "a@b.de"
                   = Some "a@b.de") by reflexivity.
  assert (Hfresh : ¬ has_subscriber "a@b.de" seeded_world)
    by (apply find_subscriber_None; reflexivity).
  split_and!; [done..|].
  destruct (subscribe_then_conflict one_at_validator "a@b.de" "a@b.de" seeded_world
              Hvalid Hfresh) as (w1 & H201 & _ & H400 & _).
  by exists w1.
Defined.

(** C7. A string the e-mail validation rejects (such as "not-an-email") is
    answered with a validation error (422) and the handler body never
    runs: the world, with its three collections and its log of driver
    calls, is returned as it was, so no store read or write took place. *)
Theorem malformed_email_rejected_before_store (adapter : StoreAdapter)
    (validator : EmailValidator) (raw : string) (w : World) :
  validate_email raw = None →
  POST_newsletter_subscribe raw w = (RequestValidationError, w)
  ∧ response_status (fst (POST_newsletter_subscribe raw w))
    = HTTP_422_UNPROCESSABLE_ENTITY
  ∧ subscribers (db (snd (POST_newsletter_subscribe raw w))) = subscribers (db w)
  ∧ oplog (snd (POST_newsletter_subscribe raw w)) = oplog w.
Proof.
  intros Hbad. unfold POST_newsletter_subscribe. by rewrite Hbad.
Qed.

Lemma malformed_email_rejected_before_store_witness :
  validate_email (EmailValidator := one_at_validator) "not-an-email" = None
  ∧ POST_newsletter_subscribe (adapter := motor_insert_one)
      (validator := one_at_validator) "not-an-email" seeded_world
    = (RequestValidationError, seeded_world).
Proof.
  split; [reflexivity|].
  apply (malformed_email_rejected_before_store motor_insert_one one_at_validator
           "not-an-email" seeded_world).
  reflexivity.
Defined.

(** C8. Once the duplicate check is passed, the answer follows the insert's
    reply: no identifier reported gives 500 "Subscription failed", an
    identifier reported gives 201 with the body
    {"message": "Subscription successful"}. *)
Theorem subscribe_follows_insert_reply (adapter : StoreAdapter)
    (validator : EmailValidator) (raw e : string) (w : World) :
  validate_email raw = Some e →
  ¬ has_subscriber e w →
  (inserted_id (fst (fst (insert_of e w))) = None →
   fst (POST_newsletter_subscribe raw w)
   = ErrorResponse HTTP_500_INTERNAL_SERVER_ERROR "Subscription failed")
  ∧ (is_Some (inserted_id (fst (fst (insert_of e w)))) →
     fst (POST_newsletter_subscribe raw w)
     = JSONResponse HTTP_201_CREATED [("message", "Subscription successful")]).
Proof.
  intros Hvalid Hfresh. rewrite (POST_valid raw e Hvalid).
  unfold serve. rewrite subscribe_fresh by done.
  split.
  - by intros ->.
  - by intros [oid ->].
Qed.

Lemma subscribe_follows_insert_reply_witness :
  validate_email (EmailValidator := one_at_validator) "a@b.de" = Some "a@b.de"
  ∧ ¬ has_subscriber "a@b.de" seeded_world
  ∧ fst (POST_newsletter_subscribe (adapter := silent_insert_one)
           (validator := one_at_validator) "a@b.de" seeded_world)
    = ErrorResponse HTTP_500_INTERNAL_SERVER_ERROR "Subscription failed"
  ∧ fst (POST_newsletter_subscribe (adapter := motor_insert_one)
           (validator := one_at_validator) "a@b.de" seeded_world)
    = JSONResponse HTTP_201_CREATED [("message", "Subscription successful")].
Proof.
  assert (Hvalid : validate_email (EmailValidator := one_at_validator) "a@b.de"
                   = Some "a@b.de") by reflexivity.
  assert (Hfresh : ¬ has_subscriber "a@b.de" seeded_world)
    by (apply find_subscriber_None; reflexivity).
  split_and!; [done..| |].
  - apply (subscribe_follows_insert_reply silent_insert_one one_at_validator
             "a@b.de" "a@b.de" seeded_world Hvalid Hfresh).
    reflexivity.
  - apply (subscribe_follows_insert_reply motor_insert_one one_at_validator
             "a@b.de" "a@b.de" seeded_world Hvalid Hfresh).
    by eexists.
Defined.

Lemma bson_datetime_bounds (t : datetime) :
  t - 1000 < bson_datetime t ∧ bson_datetime t ≤ t.
Proof. unfold bson_datetime, datetime in *. Z.div_mod_to_equations. lia. Qed.

Lemma bson_datetime_later (t t' : datetime) :
  t + 1000 ≤ t' → bson_datetime t < bson_datetime t'.
Proof. unfold bson_datetime, datetime in *. Z.div_mod_to_equations. lia. Qed.

(** C6. A successful [subscribe] call made when the clock reads [t] hands
    [insert_one] a document whose [subscribed_at] is [t], the value
    [datetime.utcnow()] returns during the call, and stores one new
    subscriber whose [subscribed_at] is [t] cut to the millisecond by the
    store: less than a millisecond before [t], never after it.  It is a
    fresh value per call: a call a millisecond or more later stores a later
    timestamp, and a call a millisecond or more after the module was
    imported stores a timestamp later than the class-level default computed
    at import. *)
Theorem subscribed_at_is_clock_at_insertion (validator : EmailValidator)
    (raw : string) (w : World) (t : datetime)
    (body : list (string * string)) (w' : World) :
  POST_newsletter_subscribe (adapter := motor_insert_one) raw (advance_clock t w)
  = (JSONResponse HTTP_201_CREATED body, w') →
  ∃ e oid stored,
    validate_email raw = Some e
    ∧ oplog w'
      = oplog w ++ [FindOne Subscribers; InsertOne Subscribers (Subscriber.mk e t)]
    ∧ subscribers (db w') = subscribers (db w) ++ [SubscriberDoc.mk oid e stored]
    ∧ stored = bson_datetime t
    ∧ (t - 1000 < stored ∧ stored ≤ t)
    ∧ (∀ t', t + 1000 ≤ t' → stored < bson_datetime t')
    ∧ (NewsletterSubscriber_default_subscribed_at w + 1000 ≤ t →
       NewsletterSubscriber_default_subscribed_at w < stored).
Proof.
  unfold POST_newsletter_subscribe.
  destruct (validate_email raw) as [e|]; [|discriminate].
  unfold serve. rewrite subscribe_run.
  destruct (head _); [discriminate|].
  rewrite motor_insert_of. cbn [inserted_id fst].
  intros [= <- <-].
  exists e, (mkObjectId (oid_counter w)), (bson_datetime t).
  pose proof (bson_datetime_bounds t) as [Hlow Hhigh].
  split_and!; try done.
  - intros t'. apply bson_datetime_later.
  - unfold NewsletterSubscriber_default_subscribed_at, datetime in *. lia.
Qed.

Lemma subscribed_at_is_clock_at_insertion_witness :
  POST_newsletter_subscribe (adapter := motor_insert_one)
    (validator := one_at_validator) "a@b.de" (advance_clock 5500 seeded_world)
  = (JSONResponse HTTP_201_CREATED [("message", "Subscription successful")],
     subscribed_world 5500)
  ∧ ∃ e oid stored,
      validate_email (EmailValidator := one_at_validator) "a@b.de" = Some e
      ∧ oplog (subscribed_world 5500)
        = oplog seeded_world
          ++ [FindOne Subscribers; InsertOne Subscribers (Subscriber.mk e 5500)]
      ∧ subscribers (db (subscribed_world 5500))
        = subscribers (db seeded_world) ++ [SubscriberDoc.mk oid e stored]
      ∧ stored = bson_datetime 5500
      ∧ (5500 - 1000 < stored ∧ stored ≤ 5500)
      ∧ (∀ t', 5500 + 1000 ≤ t' → stored < bson_datetime t')
      ∧ (NewsletterSubscriber_default_subscribed_at seeded_world + 1000 ≤ 5500 →
         NewsletterSubscriber_default_subscribed_at seeded_world < stored).
Proof.
  split; [reflexivity|].
  apply (subscribed_at_is_clock_at_insertion one_at_validator "a@b.de"
           seeded_world 5500 [("message", "Subscription successful")]
           (subscribed_world 5500)).
  reflexivity.
Defined.

(** C10. [subscribe] answers 400 exactly when a subscriber with that
    address already exists, and then the database, its subscribers
    collection included, is as before the call and the only driver call made
    is the existence check; no insert is issued.  When no such subscriber
    exists the existence check is followed by the insert. *)
Theorem conflict_leaves_subscribers_unchanged (adapter : StoreAdapter)
    (validator : EmailValidator) (raw e : string) (w : World) :
  validate_email raw = Some e →
  (response_status (fst (POST_newsletter_subscribe raw w)) = HTTP_400_BAD_REQUEST
   ↔ has_subscriber e w)
  ∧ (has_subscriber e w →
     fst (POST_newsletter_subscribe raw w)
     = ErrorResponse HTTP_400_BAD_REQUEST "Email already subscribed"
     ∧ db (snd (POST_newsletter_subscribe raw w)) = db w
     ∧ subscribers (db (snd (POST_newsletter_subscribe raw w))) = subscribers (db w)
     ∧ oplog (snd (POST_newsletter_subscribe raw w))
       = oplog w ++ [FindOne Subscribers])
  ∧ (¬ has_subscriber e w →
     oplog (snd (POST_newsletter_subscribe raw w))
     = oplog w ++ [FindOne Subscribers;
                   InsertOne Subscribers (Subscriber.mk e (clock w))]).
Proof.
  intros Hvalid. rewrite (POST_valid raw e Hvalid). unfold serve.
  destruct (has_subscriber_dec e w) as [Hhas|Hfresh].
  - rewrite subscribe_conflict by done. simpl. split_and!; try done.
  - rewrite subscribe_fresh by done.
    destruct (inserted_id _); simpl; split_and!; try done.
    all: split; [discriminate|done].
Qed.

Lemma conflict_leaves_subscribers_unchanged_witness :
  validate_email (EmailValidator := one_at_validator) "a@b.de" = Some "a@b.de"
  ∧ has_subscriber "a@b.de" (subscribed_world 1002)
  ∧ fst (POST_newsletter_subscribe (adapter := motor_insert_one)
           (validator := one_at_validator) "a@b.de" (subscribed_world 1002))
    = ErrorResponse HTTP_400_BAD_REQUEST "Email already subscribed"
  ∧ db (snd (POST_newsletter_subscribe (adapter := motor_insert_one)
               (validator := one_at_validator) "a@b.de" (subscribed_world 1002)))
    = db (subscribed_world 1002)
  ∧ oplog (snd (POST_newsletter_subscribe (adapter := motor_insert_one)
                  (validator := one_at_validator) "a@b.de" (subscribed_world 1002)))
    = oplog (subscribed_world 1002) ++ [FindOne Subscribers].
Proof.
  assert (Hhas : has_subscriber "a@b.de" (subscribed_world 1002)).
  { exists (SubscriberDoc.mk (mkObjectId 6) "a@b.de" 1000). split; [|reflexivity].
    apply list_elem_of_singleton. reflexivity. }
  split; [reflexivity|]. split; [exact Hhas|].
  destruct (conflict_leaves_subscribers_unchanged motor_insert_one one_at_validator
              "a@b.de" "a@b.de" (subscribed_world 1002) eq_refl)
    as (_ & Hconflict & _).
  destruct (Hconflict Hhas) as (H400 & Hdb & _ & Hlog).
  split_and!; assumption.
Defined.

(** ** Startup *)

(** X1. [startup_db_client] seeds a collection only when it is empty: a
    non-empty guides or categories collection is left as it is, the
    subscribers are never touched, both collections are non-empty
    afterwards (two guides, three categories where it seeded), and running
    it a second time, at any later clock readings, changes nothing. *)
Theorem startup_seeds_only_empty_collections (t1 t2 t3 t4 : datetime) (w : World) :
  (guides (db w) ≠ [] →
   guides (db (startup_db_client t1 t2 t3 t4 w)) = guides (db w))
  ∧ (categories (db w) ≠ [] →
     categories (db (startup_db_client t1 t2 t3 t4 w)) = categories (db w))
  ∧ (guides (db w) = [] →
     length (guides (db (startup_db_client t1 t2 t3 t4 w))) = 2%nat)
  ∧ (categories (db w) = [] →
     length (categories (db (startup_db_client t1 t2 t3 t4 w))) = 3%nat)
  ∧ subscribers (db (startup_db_client t1 t2 t3 t4 w)) = subscribers (db w)
  ∧ ∀ s1 s2 s3 s4,
      startup_db_client s1 s2 s3 s4 (startup_db_client t1 t2 t3 t4 w)
      = startup_db_client t1 t2 t3 t4 w.
Proof.
  destruct w as [[gs cs ss] log now imp counter].
  unfold startup_db_client. cbn [db guides categories subscribers oid_counter
    oplog clock imported_at]. rewrite filter_QAny.
  destruct gs as [|g gs], cs as [|c cs]; simpl; split_and!; try done.
Qed.

(** X2. On a database whose guides and categories are empty, startup makes
    [GET /stats] answer guides 2, categories 3, technologies 5, makes
    [GET /guides/featured] answer the Nextcloud guide, and makes
    [GET /categories] answer the three seeded categories, each with
    [guide_count] 0, whatever the clock readings and the subscribers. *)
Theorem startup_on_fresh_database (t1 t2 t3 t4 : datetime) (w : World) :
  guides (db w) = [] →
  categories (db w) = [] →
  fst (GET_stats (startup_db_client t1 t2 t3 t4 w))
  = JSONResponse HTTP_200_OK (Stats.mk 2 3 5)
  ∧ (∃ out,
       fst (GET_guides_featured (startup_db_client t1 t2 t3 t4 w))
       = JSONResponse HTTP_200_OK out
       ∧ GuideDoc.title (GuideOut.doc out) = "Nextcloud mit Redis & MySQL")
  ∧ (∃ cats,
       fst (GET_categories (startup_db_client t1 t2 t3 t4 w))
       = JSONResponse HTTP_200_OK cats
       ∧ CategoryDoc.name <$> (CategoryOut.doc <$> cats)
         = ["Cloud & Storage"; "Datenbanken"; "Container"]
       ∧ CategoryOut.guide_count <$> cats = [0; 0; 0]%nat).
Proof.
  destruct w as [[gs cs ss] log now imp counter]. simpl. intros -> ->.
  split; [reflexivity|]. split.
  - eexists. split; [reflexivity|]. done.
  - eexists. split; [reflexivity|]. done.
Qed.

Lemma startup_on_fresh_database_witness :
  guides (db empty_world) = []
  ∧ categories (db empty_world) = []
  ∧ fst (GET_stats (startup_db_client 10 11 12 13 empty_world))
    = JSONResponse HTTP_200_OK (Stats.mk 2 3 5).
Proof.
  split; [reflexivity|]. split; [reflexivity|].
  apply (startup_on_fresh_database 10 11 12 13 empty_world); reflexivity.
Defined.

(** ** More on the read handlers *)

(** X3. When several guides are featured, [get_featured_guide()] returns
    the first of them in the store's order: every guide stored before the
    returned one has [featured = false]. *)
Theorem featured_guide_is_first_featured (w : World) (out : GuideOut.t) :
  fst (GET_guides_featured w) = JSONResponse HTTP_200_OK out →
  ∃ before after,
    guides (db w) = before ++ GuideOut.doc out :: after
    ∧ Forall (λ g, GuideDoc.featured g = false) before
    ∧ GuideDoc.featured (GuideOut.doc out) = true
    ∧ GuideOut.id out = ObjectId_str (GuideDoc._id (GuideOut.doc out)).
Proof.
  unfold GET_guides_featured, serve. rewrite get_featured_guide_run.
  destruct (head _) as [guide|] eqn:Hhead; simpl; [|discriminate].
  intros [= <-].
  pose proof (head_filter_elem_of _ _ _ Hhead) as [Hfeat _].
  apply head_filter_Some in Hhead as (before & after & Hsplit & Hbefore).
  exists before, after. split_and!; [done| |by apply bool_decide_unpack in Hfeat|done].
  eapply Forall_impl; [exact Hbefore|]. intros g Hg. simpl in Hg.
  destruct (GuideDoc.featured g); [|done].
  exfalso. apply Hg. by apply bool_decide_pack.
Qed.

Lemma featured_guide_is_first_featured_witness :
  fst (GET_guides_featured seeded_world)
  = JSONResponse HTTP_200_OK (guide_out (GuideDoc.mk (mkObjectId 1)
      "Nextcloud mit Redis & MySQL"
      "Komplettanleitung für eine performante Nextcloud-Installation mit Docker, Redis Caching und MySQL-Datenbank."
      None "fas fa-cloud" "blue"
      [Tag.mk "Docker" "blue"; Tag.mk "MySQL" "green"; Tag.mk "Redis" "red"]
      true 1000 1000 None))
  ∧ ∃ before after,
      guides (db seeded_world) = before ++ GuideDoc.mk (mkObjectId 1)
        "Nextcloud mit Redis & MySQL"
        "Komplettanleitung für eine performante Nextcloud-Installation mit Docker, Redis Caching und MySQL-Datenbank."
        None "fas fa-cloud" "blue"
        [Tag.mk "Docker" "blue"; Tag.mk "MySQL" "green"; Tag.mk "Redis" "red"]
        true 1000 1000 None :: after
      ∧ Forall (λ g, GuideDoc.featured g = false) before.
Proof.
  split; [reflexivity|].
  destruct (featured_guide_is_first_featured seeded_world _ eq_refl)
    as (before & after & Hsplit & Hbefore & _).
  by exists before, after.
Defined.

Lemma cursor_limit_positive {A} (n : Z) (l : list A) :
  0 < n → cursor_limit n l = take (Z.to_nat n) l.
Proof.
  intros Hn. unfold cursor_limit. rewrite decide_False by lia.
  by rewrite Z.abs_eq by lia.
Qed.

Lemma NoDup_fmap_elem_inj {A B} (f : A → B) (l : list A) x y :
  NoDup (f <$> l) → x ∈ l → y ∈ l → f x = f y → x = y.
Proof.
  induction l as [|z l IH]; intros Hnd Hx Hy Hxy; [by apply elem_of_nil in Hx|].
  rewrite fmap_cons in Hnd. apply NoDup_cons in Hnd as [Hz Hnd].
  apply elem_of_cons in Hx as [->|Hx]; apply elem_of_cons in Hy as [->|Hy].
  - done.
  - exfalso. apply Hz. rewrite Hxy. by apply list_elem_of_fmap_2.
  - exfalso. apply Hz. rewrite <- Hxy. by apply list_elem_of_fmap_2.
  - by apply IH.
Qed.

Lemma sorted_descending_unique (docs sorted1 sorted2 : list GuideDoc.t) :
  NoDup (GuideDoc.created_at <$> docs) →
  sorted1 ≡ₚ docs → StronglySorted created_at_desc sorted1 →
  sorted2 ≡ₚ docs → StronglySorted created_at_desc sorted2 →
  sorted1 = sorted2.
Proof.
  intros Hnodup Hperm1 Hsorted1 Hperm2 Hsorted2.
  apply (StronglySorted_unique_strong created_at_desc); [|done..|by rewrite Hperm2].
  intros g1 g2 Hg1 Hg2 H12 H21. rewrite Hperm1 in Hg1. rewrite Hperm2 in Hg2.
  apply (NoDup_fmap_elem_inj GuideDoc.created_at _ _ _ Hnodup Hg1 Hg2).
  unfold created_at_desc in *. lia.
Qed.

(** X4. When no two guides share a [created_at], raising the limit only
    adds guides at the end: for [0 < N ≤ M], [M] fitting 8 bytes, the answer
    to [limit=N] is a prefix of the answer to [limit=M], and both are
    prefixes of the unlimited answer to [limit=0], which is the one
    descending order the guides have. *)
Theorem latest_guides_prefix_in_limit (w : World) (N M : Z) :
  0 < N → N ≤ M → M ≤ INT64_MAX →
  NoDup (GuideDoc.created_at <$> guides (db w)) →
  ∃ outN outM out0,
    fst (GET_guides_latest (Some N) w) = JSONResponse HTTP_200_OK outN
    ∧ fst (GET_guides_latest (Some M) w) = JSONResponse HTTP_200_OK outM
    ∧ fst (GET_guides_latest (Some 0) w) = JSONResponse HTTP_200_OK out0
    ∧ outN `prefix_of` outM
    ∧ outM `prefix_of` out0
    ∧ ∀ sorted,
        sorted ≡ₚ guides (db w) → StronglySorted created_at_desc sorted →
        GuideOut.doc <$> out0 = sorted.
Proof.
  intros HN HM Hfits Hnodup. unfold GET_guides_latest, serve. cbn [default].
  unfold id. rewrite !get_latest_guides_in_range by (unfold INT64_MAX in *; lia).
  cbn [fst]. eexists _, _, _. split_and!; [reflexivity..| | |].
  - rewrite !cursor_limit_positive by lia. rewrite !fmap_take.
    replace (Z.to_nat N) with (Z.to_nat N `min` Z.to_nat M)%nat by lia.
    rewrite <- take_take. apply prefix_take.
  - rewrite cursor_limit_positive by lia. rewrite fmap_take.
    apply prefix_take.
  - intros sorted Hperm Hsorted. rewrite doc_guide_out.
    apply (sorted_descending_unique (guides (db w))); [done| | |done..].
    + apply merge_sort_Permutation.
    + apply (StronglySorted_merge_sort created_at_desc).
Qed.

Lemma latest_guides_prefix_in_limit_witness :
  0 < 1 ∧ 1 ≤ 2 ∧ 2 ≤ INT64_MAX
  ∧ NoDup (GuideDoc.created_at <$> guides (db seeded_world))
  ∧ ∃ outN outM out0,
      fst (GET_guides_latest (Some 1) seeded_world) = JSONResponse HTTP_200_OK outN
      ∧ fst (GET_guides_latest (Some 2) seeded_world) = JSONResponse HTTP_200_OK outM
      ∧ fst (GET_guides_latest (Some 0) seeded_world) = JSONResponse HTTP_200_OK out0
      ∧ outN `prefix_of` outM
      ∧ outM `prefix_of` out0
      ∧ ∀ sorted,
          sorted ≡ₚ guides (db seeded_world) →
          StronglySorted created_at_desc sorted →
          GuideOut.doc <$> out0 = sorted.
Proof.
  assert (Hnodup : NoDup (GuideDoc.created_at <$> guides (db seeded_world))).
  { refine (bool_decide_unpack _ _). vm_compute. exact I. }
  assert (Hfits : 2 ≤ INT64_MAX) by done.
  split; [lia|]. split; [lia|]. split; [exact Hfits|]. split; [exact Hnodup|].
  apply (latest_guides_prefix_in_limit seeded_world 1 2); [lia|lia|done|done].
Defined.

Lemma group_by_tag_name_length_le rows groups :
  (length (group_by_tag_name rows groups) ≤ length groups + length rows)%nat.
Proof.
  revert groups. induction rows as [|[g t] rows IH]; intros groups; simpl; [lia|].
  etrans; [apply IH|]. case_decide; [lia|]. rewrite length_app. simpl. lia.
Qed.

Lemma length_unwind_tags docs : length (unwind_tags docs) = total_tags docs.
Proof.
  unfold total_tags. rewrite <- unwind_tags_names. by rewrite length_fmap.
Qed.

(** X5. [GET /stats] reports the number of stored guides and of stored
    categories, and a [technologies] count that never exceeds the number of
    tags attached to guides; it is 0 exactly when no guide has a tag, the
    case line 95 covers with its [else 0]. *)
Theorem stats_counts_and_bounds (w : World) :
  ∃ stats,
    fst (GET_stats w) = JSONResponse HTTP_200_OK stats
    ∧ Stats.guides stats = length (guides (db w))
    ∧ Stats.categories stats = length (categories (db w))
    ∧ (Stats.technologies stats ≤ total_tags (guides (db w)))%nat
    ∧ (Stats.technologies stats = 0%nat
       ↔ ∀ g, g ∈ guides (db w) → GuideDoc.tags g = []).
Proof.
  unfold GET_stats, serve. rewrite get_stats_run. eexists. split; [reflexivity|].
  cbn [Stats.guides Stats.categories Stats.technologies].
  split_and!; [done..| |].
  - rewrite <- group_by_tag_name_length, <- length_unwind_tags.
    apply (group_by_tag_name_length_le _ []).
  - rewrite size_empty_iff, elem_of_equiv_empty. split.
    + intros Hempty g Hg. destruct (GuideDoc.tags g) as [|t ts] eqn:Htags; [done|].
      exfalso. apply (Hempty (Tag.name t)). apply elem_of_distinct_tag_names.
      exists g, t. rewrite Htags. split_and!; [done|by left|done].
    + intros Hnone x Hx.
      apply elem_of_distinct_tag_names in Hx as (g & t & Hg & Ht & _).
      rewrite (Hnone g Hg) in Ht. by apply elem_of_nil in Ht.
Qed.

Lemma fmap_const_replicate {A B} (b : B) (l : list A) :
  (λ _, b) <$> l = replicate (length l) b.
Proof. induction l as [|x l IH]; [done|]. simpl. by rewrite <- IH. Qed.

(** X6. [get_categories()] answers one entry per stored category, in the
    store's order, and pays one [find] on categories followed by exactly
    one [count_documents] on guides per category; with no category stored
    it answers the empty list after the single [find]. *)
Theorem categories_cost_one_count_each (w : World) :
  ∃ cats,
    fst (GET_categories w) = JSONResponse HTTP_200_OK cats
    ∧ length cats = length (categories (db w))
    ∧ CategoryDoc.name <$> (CategoryOut.doc <$> cats)
      = CategoryDoc.name <$> categories (db w)
    ∧ oplog (snd (GET_categories w))
      = oplog w ++ Find Categories
                   :: replicate (length (categories (db w))) (CountDocuments Guides)
    ∧ (categories (db w) = [] → cats = []).
Proof.
  unfold GET_categories, serve. rewrite get_categories_run.
  eexists. split; [reflexivity|]. cbn [snd log_all oplog].
  split_and!.
  - apply length_fmap.
  - by rewrite <- !list_fmap_compose.
  - by rewrite fmap_const_replicate.
  - by intros ->.
Qed.

Lemma length_filter_category_cons (cid : string) (cids : list string)
    (docs : list GuideDoc.t) :
  cid ∉ cids →
  length (filter (λ g, GuideDoc.category_id g ∈ Some <$> (cid :: cids)) docs)
  = (length (guides_of_category cid docs)
     + length (filter (λ g, GuideDoc.category_id g ∈ Some <$> cids) docs))%nat.
Proof.
  intros Hfresh. unfold guides_of_category.
  induction docs as [|g docs IH]; [done|].
  rewrite !filter_cons.
  destruct (decide (GuideDoc.category_id g = Some cid)) as [Hg|Hg].
  - rewrite decide_True by (rewrite Hg; simpl; left).
    rewrite decide_False; [simpl in *; lia|].
    rewrite Hg. intros Hin. apply list_elem_of_fmap in Hin as (c & [= ->] & Hc).
    done.
  - destruct (decide (GuideDoc.category_id g ∈ Some <$> cids)) as [Hin|Hnin].
    + rewrite decide_True by (simpl; by right). simpl in *. lia.
    + rewrite decide_False; [done|].
      simpl. intros [?|?]%elem_of_cons; done.
Qed.

Lemma sum_guide_counts (docs : list GuideDoc.t) (cs : list CategoryDoc.t) :
  NoDup ((λ c, ObjectId_str (CategoryDoc._id c)) <$> cs) →
  sum_list (CategoryOut.guide_count <$> (category_out docs <$> cs))
  = length (filter (λ g, GuideDoc.category_id g
                         ∈ Some <$> ((λ c, ObjectId_str (CategoryDoc._id c)) <$> cs))
              docs).
Proof.
  induction cs as [|c cs IH]; intros Hnodup.
  - simpl. symmetry. apply length_zero_iff_nil, head_None, head_filter_None.
    intros g _ Hin. by apply elem_of_nil in Hin.
  - apply NoDup_cons in Hnodup as [Hc Hcs].
    transitivity
      (length (guides_of_category (ObjectId_str (CategoryDoc._id c)) docs)
       + length (filter (λ g, GuideDoc.category_id g
                              ∈ Some <$> ((λ c, ObjectId_str (CategoryDoc._id c))
                                            <$> cs)) docs))%nat.
    + rewrite <- IH by done. rewrite <- length_guides_of_category. done.
    + symmetry. exact (length_filter_category_cons _ _ docs Hc).
Qed.

(** X7. When the stored categories render to pairwise distinct ids, the
    [guide_count]s of [GET /categories] add up to the number of guides whose
    [category_id] is one of these ids: no guide is counted twice, guides
    without a (matching) [category_id] are counted nowhere, and the sum
    never exceeds the number of guides. *)
Theorem category_counts_do_not_double_count (w : World)
    (cats : list CategoryOut.t) :
  NoDup ((λ c, ObjectId_str (CategoryDoc._id c)) <$> categories (db w)) →
  fst (GET_categories w) = JSONResponse HTTP_200_OK cats →
  sum_list (CategoryOut.guide_count <$> cats)
  = length (filter (λ g, GuideDoc.category_id g ∈ Some <$> (CategoryOut.id <$> cats))
              (guides (db w)))
  ∧ (sum_list (CategoryOut.guide_count <$> cats) ≤ length (guides (db w)))%nat.
Proof.
  intros Hnodup. unfold GET_categories, serve. rewrite get_categories_run.
  intros [= <-].
  assert (Hids : CategoryOut.id <$> (category_out (guides (db w)) <$> categories (db w))
                 = (λ c, ObjectId_str (CategoryDoc._id c)) <$> categories (db w))
    by (by rewrite <- list_fmap_compose).
  rewrite Hids, sum_guide_counts by done.
  split; [done|]. apply length_filter.
Qed.

Lemma category_counts_do_not_double_count_witness :
  NoDup ((λ c, ObjectId_str (CategoryDoc._id c)) <$> categories (db seeded_world))
  ∧ (sum_list (CategoryOut.guide_count <$>
                 (category_out (seed_guides 1000%Z) <$> seed_categories))
     ≤ length (guides (db seeded_world)))%nat.
Proof.
  assert (Hnodup : NoDup ((λ c, ObjectId_str (CategoryDoc._id c))
                            <$> categories (db seeded_world))).
  { refine (bool_decide_unpack _ _). vm_compute. exact I. }
  split; [exact Hnodup|].
  apply (category_counts_do_not_double_count seeded_world
           (category_out (seed_guides 1000) <$> seed_categories) Hnodup).
  reflexivity.
Defined.

(** ** More on subscriptions *)

Lemma POST_motor_cases (validator : EmailValidator) (raw : string) (w : World) :
  (validate_email raw = None
   ∧ POST_newsletter_subscribe (adapter := motor_insert_one) raw w
     = (RequestValidationError, w))
  ∨ (∃ e, validate_email raw = Some e ∧ has_subscriber e w
          ∧ POST_newsletter_subscribe (adapter := motor_insert_one) raw w
            = (ErrorResponse HTTP_400_BAD_REQUEST "Email already subscribed",
               log_all [FindOne Subscribers] w))
  ∨ (∃ e, validate_email raw = Some e ∧ ¬ has_subscriber e w
          ∧ POST_newsletter_subscribe (adapter := motor_insert_one) raw w
            = (JSONResponse HTTP_201_CREATED [("message", "Subscription successful")],
               after_insert (adapter := motor_insert_one) e w)).
Proof.
  unfold POST_newsletter_subscribe.
  destruct (validate_email raw) as [e|]; [|by left]. right.
  unfold serve. destruct (has_subscriber_dec e w) as [Hhas|Hfresh].
  - left. exists e. by rewrite subscribe_conflict.
  - right. exists e. rewrite subscribe_fresh by done. by rewrite motor_insert_of.
Qed.

Lemma subscribers_after_motor_insert e w :
  subscribers (db (after_insert (adapter := motor_insert_one) e w))
  = subscribers (db w)
    ++ [SubscriberDoc.mk (mkObjectId (oid_counter w)) e (bson_datetime (clock w))].
Proof. done. Qed.

Lemma has_subscriber_after_insert e e' w :
  has_subscriber e' (after_insert (adapter := motor_insert_one) e w)
  ↔ e' = e ∨ has_subscriber e' w.
Proof.
  unfold has_subscriber. rewrite subscribers_after_motor_insert. split.
  - intros (s & [Hs|Hs]%elem_of_app & He).
    + right. by exists s.
    + apply list_elem_of_singleton in Hs as ->. by left.
  - intros [->|(s & Hs & He)].
    + eexists. split; [apply elem_of_app; right; by apply list_elem_of_singleton|done].
    + exists s. split; [|done]. apply elem_of_app. by left.
Qed.

Lemma POST_motor_fresh (validator : EmailValidator) (raw e : string) (w : World) :
  validate_email raw = Some e →
  ¬ has_subscriber e w →
  POST_newsletter_subscribe (adapter := motor_insert_one) raw w
  = (JSONResponse HTTP_201_CREATED [("message", "Subscription successful")],
     after_insert (adapter := motor_insert_one) e w).
Proof.
  intros Hv Hfresh.
  destruct (POST_motor_cases validator raw w)
    as [[Hv' _]|[(e' & Hv' & Hhas & _)|(e' & Hv' & _ & ->)]];
    rewrite Hv in Hv'; by simplify_eq.
Qed.

(** X8. With the motor driver, [POST /newsletter/subscribe] has exactly
    three outcomes: 422 when the address is malformed, 400 when the
    validated address is already stored, 201 otherwise.  The 500 branch of
    lines 161-165 is never taken, because [insert_one] always reports the
    ObjectId it generated. *)
Theorem subscribe_outcomes_with_motor (validator : EmailValidator)
    (raw : string) (w : World) :
  (response_status (fst (POST_newsletter_subscribe (adapter := motor_insert_one) raw w))
   = HTTP_422_UNPROCESSABLE_ENTITY
   ↔ validate_email raw = None)
  ∧ (response_status (fst (POST_newsletter_subscribe (adapter := motor_insert_one) raw w))
     = HTTP_400_BAD_REQUEST
     ↔ ∃ e, validate_email raw = Some e ∧ has_subscriber e w)
  ∧ (response_status (fst (POST_newsletter_subscribe (adapter := motor_insert_one) raw w))
     = HTTP_201_CREATED
     ↔ ∃ e, validate_email raw = Some e ∧ ¬ has_subscriber e w)
  ∧ response_status (fst (POST_newsletter_subscribe (adapter := motor_insert_one) raw w))
    ≠ HTTP_500_INTERNAL_SERVER_ERROR.
Proof.
  destruct (POST_motor_cases validator raw w)
    as [[Hv ->]|[(e & Hv & Hhas & ->)|(e & Hv & Hfresh & ->)]];
    cbn [fst response_status]; rewrite Hv.
  - split_and!; [done| | |done].
    + split; [done|]. by intros (e & ? & _).
    + split; [done|]. by intros (e & ? & _).
  - split_and!; [done| | |done].
    + split; [by exists e|done].
    + split; [done|]. by intros (e' & [= <-] & ?).
  - split_and!; [done| | |done].
    + split; [done|]. by intros (e' & [= <-] & ?).
    + split; [by exists e|done].
Qed.

(** X9. The duplicate check compares validated addresses.  After a
    successful subscription of [raw1], a second request [raw2] answers 400
    exactly when its validated address equals that of [raw1] or was stored
    before, and 201 exactly when it is a different address not yet
    stored. *)
Theorem duplicate_check_compares_validated_addresses (validator : EmailValidator)
    (raw1 raw2 e1 e2 : string) (w : World) :
  validate_email raw1 = Some e1 →
  validate_email raw2 = Some e2 →
  ¬ has_subscriber e1 w →
  (response_status
     (fst (POST_newsletter_subscribe (adapter := motor_insert_one) raw2
             (snd (POST_newsletter_subscribe (adapter := motor_insert_one) raw1 w))))
   = HTTP_400_BAD_REQUEST
   ↔ e2 = e1 ∨ has_subscriber e2 w)
  ∧ (response_status
       (fst (POST_newsletter_subscribe (adapter := motor_insert_one) raw2
               (snd (POST_newsletter_subscribe (adapter := motor_insert_one) raw1 w))))
     = HTTP_201_CREATED
     ↔ e2 ≠ e1 ∧ ¬ has_subscriber e2 w).
Proof.
  intros Hv1 Hv2 Hfresh.
  rewrite (POST_motor_fresh validator raw1 e1 w Hv1 Hfresh). cbn [snd].
  destruct (POST_motor_cases validator raw2
              (after_insert (adapter := motor_insert_one) e1 w))
    as [[Hv _]|[(e & Hv & Hhas & ->)|(e & Hv & Hnew & ->)]];
    rewrite Hv2 in Hv; [discriminate| |]; injection Hv as <-;
    cbn [fst response_status].
  - apply has_subscriber_after_insert in Hhas. split.
    + by split.
    + split; [discriminate|]. intros [Hne Hnot]. by destruct Hhas.
  - rewrite has_subscriber_after_insert in Hnew. split.
    + split; [discriminate|]. intros Hdup. by destruct Hnew.
    + split; [|done]. intros _. split; [intros ->|intros Hhas]; apply Hnew; tauto.
Qed.

Lemma duplicate_check_compares_validated_addresses_witness :
  validate_email (EmailValidator := one_at_validator) "a@b.de" = Some "a@b.de"
  ∧ validate_email (EmailValidator := one_at_validator) "c@d.de" = Some "c@d.de"
  ∧ ¬ has_subscriber "a@b.de" seeded_world
  ∧ (response_status
       (fst (POST_newsletter_subscribe (adapter := motor_insert_one)
               (validator := one_at_validator) "c@d.de"
               (snd (POST_newsletter_subscribe (adapter := motor_insert_one)
                       (validator := one_at_validator) "a@b.de" seeded_world))))
     = HTTP_201_CREATED
     ↔ "c@d.de" ≠ "a@b.de" ∧ ¬ has_subscriber "c@d.de" seeded_world).
Proof.
  assert (Hfresh : ¬ has_subscriber "a@b.de" seeded_world)
    by (apply find_subscriber_None; reflexivity).
  split; [reflexivity|]. split; [reflexivity|]. split; [exact Hfresh|].
  apply (duplicate_check_compares_validated_addresses one_at_validator
           "a@b.de" "c@d.de" "a@b.de" "c@d.de" seeded_world eq_refl eq_refl Hfresh).
Defined.

Lemma POST_motor_step (validator : EmailValidator) (raw : string) (w : World) :
  emails_unique w →
  emails_unique (snd (POST_newsletter_subscribe (adapter := motor_insert_one) raw w))
  ∧ subscribers (db w)
    `prefix_of` subscribers
                  (db (snd (POST_newsletter_subscribe
                              (adapter := motor_insert_one) raw w)))
  ∧ length (subscribers
              (db (snd (POST_newsletter_subscribe (adapter := motor_insert_one) raw w))))
    = (length (subscribers (db w))
       + length (filter (λ r, response_status r = HTTP_201_CREATED)
                   [fst (POST_newsletter_subscribe
                           (adapter := motor_insert_one) raw w)]))%nat.
Proof.
  intros Huniq.
  destruct (POST_motor_cases validator raw w)
    as [[Hv ->]|[(e & Hv & Hhas & ->)|(e & Hv & Hfresh & ->)]]; cbn [fst snd].
  - split_and!; [done..|]. rewrite filter_cons_False by done. simpl. lia.
  - split_and!; [done..|]. rewrite filter_cons_False by done. simpl. lia.
  - rewrite filter_cons_True by done. unfold emails_unique.
    rewrite subscribers_after_motor_insert, fmap_app, length_app. simpl.
    split_and!; [|by apply prefix_app_r|done].
    apply NoDup_app. split_and!; [done| |apply NoDup_singleton].
    intros x Hx Hx'. apply list_elem_of_singleton in Hx' as ->.
    apply Hfresh. apply list_elem_of_fmap in Hx as (s & Hs & Hin). by exists s.
Qed.

(** X10. Sequential subscriptions keep the subscribers' addresses pairwise
    distinct.  Whatever addresses a client posts one after the other,
    existing subscriber records are neither changed nor removed (the old
    collection is a prefix of the new one), the collection grows by exactly
    the number of 201 answers, and every request gets an answer. *)
Theorem subscribe_all_keeps_emails_unique (validator : EmailValidator)
    (emails : list string) (w : World) :
  emails_unique w →
  emails_unique (snd (subscribe_all (adapter := motor_insert_one) emails w))
  ∧ subscribers (db w)
    `prefix_of` subscribers
                  (db (snd (subscribe_all (adapter := motor_insert_one) emails w)))
  ∧ length (subscribers
              (db (snd (subscribe_all (adapter := motor_insert_one) emails w))))
    = (length (subscribers (db w))
       + length (filter (λ r, response_status r = HTTP_201_CREATED)
                   (fst (subscribe_all (adapter := motor_insert_one) emails w))))%nat
  ∧ length (fst (subscribe_all (adapter := motor_insert_one) emails w))
    = length emails.
Proof.
  revert w. induction emails as [|raw rest IH]; intros w Huniq.
  - simpl. split_and!; [done..|lia|done].
  - cbn [subscribe_all fst snd].
    destruct (POST_motor_step validator raw w Huniq) as (Huniq1 & Hpre1 & Hlen1).
    destruct (IH _ Huniq1) as (Huniq2 & Hpre2 & Hlen2 & Hans).
    split_and!; [done|by etrans| |simpl; by rewrite Hans].
    rewrite Hlen2, Hlen1.
    change (?r :: ?rs) with ([r] ++ rs) at 2. rewrite filter_app, length_app. lia.
Qed.

Lemma subscribe_all_keeps_emails_unique_witness :
  emails_unique seeded_world
  ∧ emails_unique
      (snd (subscribe_all (adapter := motor_insert_one) (validator := one_at_validator)
              ["a@b.de"; "not-an-email"; "a@b.de"; "c@d.de"] seeded_world))
  ∧ response_status <$>
      fst (subscribe_all (adapter := motor_insert_one) (validator := one_at_validator)
             ["a@b.de"; "not-an-email"; "a@b.de"; "c@d.de"] seeded_world)
    = [201; 422; 400; 201].
Proof.
  assert (Huniq : emails_unique seeded_world) by apply NoDup_nil_2.
  split; [exact Huniq|]. split; [|reflexivity].
  apply (subscribe_all_keeps_emails_unique one_at_validator
           ["a@b.de"; "not-an-email"; "a@b.de"; "c@d.de"] seeded_world Huniq).
Defined.

Lemma POST_frame (adapter : StoreAdapter) (validator : EmailValidator)
    (raw : string) (w : World) :
  guides (db (snd (POST_newsletter_subscribe raw w))) = guides (db w)
  ∧ categories (db (snd (POST_newsletter_subscribe raw w))) = categories (db w).
Proof.
  unfold POST_newsletter_subscribe.
  destruct (validate_email raw) as [e|]; [|done].
  unfold serve. rewrite subscribe_run.
  destruct (head _); [done|]. by destruct (inserted_id _).
Qed.

(** X11. A subscription request, whatever its outcome and whatever the
    store adapter, leaves guides and categories alone, so every read route
    answers after it what it answered before it. *)
Theorem subscribe_does_not_change_reads (adapter : StoreAdapter)
    (validator : EmailValidator) (raw : string) (limit : option Z) (w : World) :
  guides (db (snd (POST_newsletter_subscribe raw w))) = guides (db w)
  ∧ categories (db (snd (POST_newsletter_subscribe raw w))) = categories (db w)
  ∧ fst (GET_stats (snd (POST_newsletter_subscribe raw w))) = fst (GET_stats w)
  ∧ fst (GET_guides_featured (snd (POST_newsletter_subscribe raw w)))
    = fst (GET_guides_featured w)
  ∧ fst (GET_categories (snd (POST_newsletter_subscribe raw w)))
    = fst (GET_categories w)
  ∧ fst (GET_guides_latest limit (snd (POST_newsletter_subscribe raw w)))
    = fst (GET_guides_latest limit w).
Proof.
  destruct (POST_frame adapter validator raw w) as [Hg Hc].
  unfold GET_stats, GET_guides_featured, GET_categories, GET_guides_latest, serve.
  rewrite !get_stats_run, !get_featured_guide_run, !get_categories_run,
    !get_latest_guides_run.
  rewrite Hg, Hc. split_and!; try done.
  - by destruct (head _).
  - by case_decide.
Qed.

(** ** The store's order of guides *)


Lemma distinct_tag_names_Permutation docs1 docs2 :
  docs1 ≡ₚ docs2 → distinct_tag_names docs1 = distinct_tag_names docs2.
Proof.
  intros Hperm. apply set_eq. intros x. rewrite !elem_of_distinct_tag_names.
  by setoid_rewrite Hperm.
Qed.

Lemma category_out_Permutation docs1 docs2 c :
  docs1 ≡ₚ docs2 → category_out docs1 c = category_out docs2 c.
Proof. intros Hperm. unfold category_out. by rewrite Hperm. Qed.

(** X12. The order in which the store keeps the guides does not show in
    the statistics or in the categories' guide counts: two databases with
    the same guides in different orders, and the same categories, get the
    same answers from [GET /stats] and [GET /categories]. *)
Theorem stats_and_counts_ignore_guide_order (w1 w2 : World) :
  guides (db w1) ≡ₚ guides (db w2) →
  categories (db w1) = categories (db w2) →
  fst (GET_stats w1) = fst (GET_stats w2)
  ∧ fst (GET_categories w1) = fst (GET_categories w2).
Proof.
  intros Hperm Hcats. unfold GET_stats, GET_categories, serve.
  rewrite !get_stats_run, !get_categories_run. cbn [fst].
  rewrite Hcats, (Permutation_length Hperm),
    (distinct_tag_names_Permutation _ _ Hperm).
  split; [done|]. f_equal. apply list_fmap_ext. intros i c _.
  by apply category_out_Permutation.
Qed.

Lemma stats_and_counts_ignore_guide_order_witness :
  guides (db seeded_world) ≡ₚ guides (db seeded_world_reordered)
  ∧ categories (db seeded_world) = categories (db seeded_world_reordered)
  ∧ fst (GET_stats seeded_world) = fst (GET_stats seeded_world_reordered)
  ∧ fst (GET_categories seeded_world) = fst (GET_categories seeded_world_reordered).
Proof.
  assert (Hperm : guides (db seeded_world) ≡ₚ guides (db seeded_world_reordered))
    by apply perm_swap.
  split; [exact Hperm|]. split; [reflexivity|].
  apply (stats_and_counts_ignore_guide_order seeded_world seeded_world_reordered
           Hperm eq_refl).
Defined.

Lemma cursor_sort_descending (l : list GuideDoc.t) :
  cursor_sort_created_at (-1) l = merge_sort created_at_desc l.
Proof. done. Qed.

(** X13. When no two guides share a [created_at], the answer of
    [GET /guides/latest] is determined by the set of guides alone: two
    databases holding the same guides in different orders get the same
    answer, for every limit.  Only ties in [created_at] can make the
    store's order show. *)
Theorem latest_guides_ignore_guide_order_without_ties (w1 w2 : World)
    (limit : option Z) :
  guides (db w1) ≡ₚ guides (db w2) →
  NoDup (GuideDoc.created_at <$> guides (db w1)) →
  fst (GET_guides_latest limit w1) = fst (GET_guides_latest limit w2).
Proof.
  intros Hperm Hnodup. unfold GET_guides_latest, serve.
  rewrite !get_latest_guides_run. case_decide; [done|]. cbn [fst]. do 3 f_equal.
  rewrite !cursor_sort_descending.
  apply (StronglySorted_unique_strong created_at_desc).
  - intros g1 g2 Hg1 Hg2 H12 H21.
    rewrite merge_sort_Permutation in Hg1. rewrite merge_sort_Permutation in Hg2.
    rewrite <- Hperm in Hg2.
    apply (NoDup_fmap_elem_inj GuideDoc.created_at _ _ _ Hnodup Hg1 Hg2).
    unfold created_at_desc in *. lia.
  - apply (StronglySorted_merge_sort created_at_desc).
  - apply (StronglySorted_merge_sort created_at_desc).
  - by rewrite !merge_sort_Permutation.
Qed.

Lemma latest_guides_ignore_guide_order_without_ties_witness :
  guides (db seeded_world) ≡ₚ guides (db seeded_world_reordered)
  ∧ NoDup (GuideDoc.created_at <$> guides (db seeded_world))
  ∧ fst (GET_guides_latest (Some 1) seeded_world)
    = fst (GET_guides_latest (Some 1) seeded_world_reordered).
Proof.
  assert (Hperm : guides (db seeded_world) ≡ₚ guides (db seeded_world_reordered))
    by apply perm_swap.
  assert (Hnodup : NoDup (GuideDoc.created_at <$> guides (db seeded_world))).
  { refine (bool_decide_unpack _ _). vm_compute. exact I. }
  split; [exact Hperm|]. split; [exact Hnodup|].
  apply (latest_guides_ignore_guide_order_without_ties seeded_world
           seeded_world_reordered (Some 1) Hperm Hnodup).
Defined.
